(** * freedict-editor, [src/xml.c]: the brace scanner of the XPath
    extension function, XPath evaluation with a published parser context,
    leaf validation and extraction, and the joined orth text.

    The C functions of [xml.c] are embedded as Rocq functions under their
    own names.  Conventions:
    - a pointer that may be NULL is an [option];
    - a C string is a byte list, with its terminator written out where
      the code depends on it, or a [string] where only [strcmp] looks at
      it;
    - libxml2 nodes live in a store ([gmap]) addressed by pointers, and a
      function that edits the tree returns the new store;
    - what a call prints, locks and writes to the shared slot is returned
      as a list of events;
    - an execution that reads or writes outside an object, calls [strcmp]
      on NULL or fails an assertion has no result ([None]);
    - what libxml2 and GLib return is a parameter ([env]).

    Definitions come first ([Braces], [Xml], [Sample]), then the
    properties ([BracesFacts], [XmlFacts], [JoinFacts]) and the runs on
    the sample data ([XmlRuns]).

    The extension function around the scanner ([Extension]) and the
    label and value lists of [src/values.c] ([ValuesC]) follow the same
    conventions; an allocated block is the list of its bytes, and how
    many bytes a block of a requested size really has is a parameter.
    Their properties are in [ExtensionFacts] and [ValuesFacts]; further
    properties of the queries, the node check and the joined text are in
    [QueryFacts] and [JoinMore]. *)

From stdpp Require Import base option list strings gmap.
From Stdlib Require Import ZArith Lia Ascii.
Local Open Scope Z_scope.

(** ** Bytes and C strings *)

(** The code of a character constant such as ['(']. *)
Definition chr (a : ascii) : Z := Z.of_N (N_of_ascii a).

(** The bytes of a string literal, without terminator. *)
Fixpoint bytes (s : string) : list Z :=
  match s with
  | EmptyString => []
  | String a s' => chr a :: bytes s'
  end.

(** No byte of a C string's text is the terminator. *)
Definition nul_free (s : list Z) : Prop := Forall (λ b, b ≠ 0) s.

(** ** The brace scanner of the XPath extension function
    ([contains_unbalanced_braces], xml.c lines 39-88) *)

Module Braces.

(** [char stack[100]; int stackend = sizeof(stack);] *)
Record frame := { stack : list Z; stackend : Z }.

Definition sizeof_stack : Z := 100.

(** [cub_push]: FALSE on stack full, else [stack[--stackend] = b]. *)
Definition cub_push (b : Z) (f : frame) : bool * frame :=
  if decide (stackend f = 0) then (false, f)
  else
    let e := stackend f - 1 in
    (true, {| stack := <[Z.to_nat e := b]> (stack f); stackend := e |}).

(** [cub_pop]: ['E'] when the stack is empty, else [stack[stackend++]]. *)
Definition cub_pop (f : frame) : Z * frame :=
  if decide (sizeof_stack ≤ stackend f) then (chr "E", f)
  else (default 0 (stack f !! Z.to_nat (stackend f)),
        {| stack := stack f; stackend := stackend f + 1 |}).

(** The [switch] on [*c] in the loop body; [None] is [return TRUE]. *)
Definition cub_switch (c : Z) (f : frame) : option frame :=
  if decide (c = chr "(") then
    let '(ok, f') := cub_push (chr "(") f in if ok then Some f' else None
  else if decide (c = chr "[") then
    let '(ok, f') := cub_push (chr "[") f in if ok then Some f' else None
  else if decide (c = chr "{") then
    let '(ok, f') := cub_push (chr "{") f in if ok then Some f' else None
  else if decide (c = chr ")") then
    let '(p, f') := cub_pop f in if decide (p = chr "(") then Some f' else None
  else if decide (c = chr "]") then
    let '(p, f') := cub_pop f in if decide (p = chr "[") then Some f' else None
  else if decide (c = chr "}") then
    let '(p, f') := cub_pop f in if decide (p = chr "{") then Some f' else None
  else Some f.

(** After the loop: [if(cub_pop()!='E') return TRUE; return FALSE;]. *)
Definition cub_finish (f : frame) : bool :=
  if decide (fst (cub_pop f) = chr "E") then false else true.

(** The [do { switch ... c++; } while( *c );] loop over the memory that starts
    at [c] and ends with the object [c] points into.  The body runs before
    the first test, and every test reads the byte after the one just
    handled; a read past the end of the object has no result. *)
Fixpoint cub_loop (mem : list Z) (f : frame) : option bool :=
  match mem with
  | [] => None
  | c :: mem' =>
      match cub_switch c f with
      | None => Some true
      | Some f' =>
          match mem' with
          | [] => None
          | c' :: _ =>
              if decide (c' = 0) then Some (cub_finish f') else cub_loop mem' f'
          end
      end
  end.

(** [stack0] is the content of the uninitialised local array; [c] is NULL
    or the memory from [c] on. *)
Definition contains_unbalanced_braces (stack0 : list Z) (c : option (list Z))
  : option bool :=
  match c with
  | None => Some false
  | Some mem => cub_loop mem {| stack := stack0; stackend := sizeof_stack |}
  end.

(** The memory of a C string with text [s], followed by [rest]. *)
Definition cstring (s rest : list Z) : list Z := s ++ 0 :: rest.

(** *** The scan as the specification words it

    A stack of at most [cap] openers: push on an opener (overflow is
    "unbalanced"), pop on a closer and require the matching opener
    (mismatch or empty stack is "unbalanced"), and at the end of the input
    a non-empty stack is "unbalanced". *)

Definition opener (c : Z) : bool :=
  bool_decide (c = chr "(") || bool_decide (c = chr "[") || bool_decide (c = chr "{").

Definition closer_of (c : Z) : option Z :=
  if decide (c = chr ")") then Some (chr "(")
  else if decide (c = chr "]") then Some (chr "[")
  else if decide (c = chr "}") then Some (chr "{")
  else None.

Fixpoint scan_spec (cap : nat) (s : list Z) (stk : list Z) : bool :=
  match s with
  | [] => match stk with [] => false | _ => true end
  | c :: s' =>
      if opener c then
        if decide (length stk < cap)%nat then scan_spec cap s' (c :: stk) else true
      else
        match closer_of c with
        | Some o =>
            match stk with
            | [] => true
            | t :: stk' => if decide (t = o) then scan_spec cap s' stk' else true
            end
        | None => scan_spec cap s' stk
        end
  end.

(** "Every bracket is closed in the order opened", with the nesting depth
    bounded by [d]. *)
Inductive Balanced : nat → list Z → Prop :=
  | Bal_nil d : Balanced d []
  | Bal_skip d c s :
      opener c = false → closer_of c = None →
      Balanced d s → Balanced d (c :: s)
  | Bal_pair d o c s1 s2 :
      closer_of c = Some o →
      Balanced d s1 → Balanced (S d) s2 →
      Balanced (S d) (o :: s1 ++ c :: s2).

(** Balanced at some depth. *)
Definition balanced (s : list Z) : Prop := ∃ d, Balanced d s.

(** The frame [f] holds the abstract stack [stk]: the live entries are
    [stack[stackend .. 99]], top first. *)
Definition holds (f : frame) (stk : list Z) : Prop :=
  length (stack f) = 100%nat ∧ 0 ≤ stackend f ≤ 100 ∧
  drop (Z.to_nat (stackend f)) (stack f) = stk ∧
  Forall (λ o, opener o = true) stk.

(** What is left to read when the stack holds [stk]: for each pending
    opener, a balanced piece and then its closer. *)
Fixpoint Closes (cap : nat) (stk : list Z) (s : list Z) : Prop :=
  match stk with
  | [] => Balanced cap s
  | o :: stk' =>
      ∃ s1 c s2, s = s1 ++ c :: s2 ∧ closer_of c = Some o ∧
                 Balanced (cap - length stk) s1 ∧ Closes cap stk' s2
  end.

(** The input on which the fixed capacity shows: 101 opening parentheses
    and then 101 closing ones. *)
Definition deep : list Z := repeat (chr "(") 101 ++ repeat (chr ")") 101.

End Braces.

(** ** The libxml2 data the functions of [xml.c] read and write *)

Module Xml.

(** [xmlNodePtr] and the other pointers; NULL is [None] at each use. *)
Definition ptr := positive.

Inductive xmlElementType :=
  | XML_ELEMENT_NODE | XML_ATTRIBUTE_NODE | XML_TEXT_NODE
  | XML_CDATA_SECTION_NODE | XML_ENTITY_REF_NODE | XML_PI_NODE
  | XML_COMMENT_NODE | XML_DOCUMENT_NODE.

Global Instance xmlElementType_eq_dec : EqDecision xmlElementType.
Proof. solve_decision. Defined.

(** One entry of the [properties] chain: [name], and the string that
    [xmlNodeGetContent(nattrs->children)] returns for it (NULL when the
    attribute has no child). *)
Record xmlAttr := { attr_name : option string; attr_value : option string }.

(** The fields of [struct _xmlNode] used in [xml.c].  [children] is the
    chain [children], [children->next], ... in order; the document node
    ([xmlDoc], which shares the layout) is a node of type
    [XML_DOCUMENT_NODE]. *)
Record xmlNode := {
  type : xmlElementType;
  name : string;
  properties : list xmlAttr;
  parent : option ptr;
  children : list ptr
}.

(** The heap of nodes. *)
Abbreviation store := (gmap ptr xmlNode).

(** [xmlNodeSet]: [nodeTab[0 .. nodeNr-1]], in the order libxml2 returns
    them.  The entries are nodes of the tree; attribute and namespace
    nodes, which an expression can also select, are not modelled. *)
Record xmlNodeSet := { nodeTab : list ptr }.
Definition nodeNr (s : xmlNodeSet) : Z := Z.of_nat (length (nodeTab s)).

Inductive xmlXPathObjectType :=
  | XPATH_NODESET | XPATH_BOOLEAN | XPATH_NUMBER | XPATH_STRING.

(** [xmlXPathObject]: only a node-set result has [nodesetval]. *)
Record xmlXPathObject := {
  xo_type : xmlXPathObjectType;
  nodesetval : option xmlNodeSet;
  boolval : bool
}.

(** [xmlXPathContext]: the document it was created for. *)
Record xmlXPathContext := { ctxt_doc : option ptr }.

(** The parser context once [xmlXPathEvalExpr] is back: the byte at
    [cur] (0 when the whole expression was consumed) and the value stack,
    top first. *)
Record xmlXPathParserContext := { cur : Z; valueTab : list xmlXPathObject }.

(** What the slot [*pctxt] holds on entry: NULL, a parser context, or the
    indeterminate content of an uninitialised variable. *)
Inductive slot_value := SlotNull | SlotContext (p : ptr) | SlotIndeterminate.

(** What a call does besides computing its result, in order. *)
Inductive event :=
  | MutexLock                         (* g_mutex_lock(find_nodeset_pcontext_mutex) *)
  | MutexUnlock                       (* g_mutex_unlock(find_nodeset_pcontext_mutex) *)
  | SlotWrite (v : option ptr)        (* *pctxt = v *)
  | EvalExpr (p : ptr)                (* xmlXPathEvalExpr( *pctxt ) *)
  | FreeParserContext (p : ptr)       (* xmlXPathFreeParserContext( *pctxt ) *)
  | XPathError (code : string)        (* xmlXPatherror *)
  | Printed (msg : string).           (* g_printerr, xmlGenericError,
                                         g_return_val_if_fail: the message,
                                         without location and arguments *)

Global Instance event_eq_dec : EqDecision event.
Proof. solve_decision. Defined.

(** A result together with the events of the call. *)
Definition traced (A : Type) : Type := A * list event.

(** [xmlXPathObjectPtr valuePop(ctxt)]: NULL on the empty stack. *)
Definition valuePop (st : list xmlXPathObject)
  : option xmlXPathObject * list xmlXPathObject :=
  match st with
  | [] => (None, [])
  | o :: st' => (Some o, st')
  end.

(** [xmlUnlinkNode(cur)]: [cur] leaves the child chain of its parent and
    has no parent afterwards; nothing else is written. *)
Definition xmlUnlinkNode (cur : ptr) (h : store) : store :=
  match h !! cur with
  | None => h
  | Some n =>
      let h1 :=
        match parent n with
        | Some p =>
            alter (λ pn, {| type := type pn; name := name pn;
                            properties := properties pn; parent := parent pn;
                            children := filter (λ c, c ≠ cur) (children pn) |}) p h
        | None => h
        end in
      <[cur := {| type := type n; name := name n; properties := properties n;
                  parent := None; children := children n |}]> h1
  end.

(** The inverse edit a caller performs to put a detached node back: [cur]
    becomes the child number [i] of [p]. *)
Definition relink (cur p : ptr) (i : nat) (h : store) : store :=
  let h1 :=
    alter (λ pn, {| type := type pn; name := name pn;
                    properties := properties pn; parent := parent pn;
                    children := take i (children pn) ++ cur :: drop i (children pn) |}) p h in
  alter (λ n, {| type := type n; name := name n; properties := properties n;
                 parent := Some p; children := children n |}) cur h1.

(** The position of [cur] among the children of its parent. *)
Fixpoint index_of (cur : ptr) (l : list ptr) : nat :=
  match l with
  | [] => 0
  | c :: l' => if decide (c = cur) then 0 else S (index_of cur l')
  end.

(** *** [has_only_text_children_and_allowed_attrs], xml.c lines 318-378 *)

(** The inner [while( *attr )] loop for one attribute of the node, entered
    with [attr] and [attr_content] pointing at entry [i] of their arrays.
    [attrs] are the entries before the terminating NULL.  The [g_debug] at
    the head of the body reads [*attr_content], so the loop has no result
    when [attr_contents] is NULL or has no entry [i]; [strcmp] has no
    result on a NULL argument.  The result is the final [allowed]. *)
Fixpoint allowed_loop (nm : string) (attr_value : option string)
    (attrs : list string) (attr_contents : option (list (option string)))
    (i : nat) : option bool :=
  match attrs with
  | [] => Some false
  | a :: attrs' =>
      match attr_contents with
      | None => None
      | Some contents =>
          match contents !! i with
          | None => None
          | Some entry =>
              if decide (nm = a) then
                match attr_value, entry with
                | Some v, Some e =>
                    if decide (v = e) then Some true
                    else allowed_loop nm attr_value attrs' attr_contents (S i)
                | _, _ => None
                end
              else allowed_loop nm attr_value attrs' attr_contents (S i)
          end
      end
  end.

(** The outer [while(nattrs)] loop; [None] inside [Some] does not occur:
    [Some false] is [return FALSE], [Some true] is falling out of the loop. *)
Fixpoint attrs_loop (nattrs : list xmlAttr)
    (attrs : list string) (attr_contents : option (list (option string)))
  : option bool :=
  match nattrs with
  | [] => Some true
  | a :: nattrs' =>
      match attr_name a with
      | None => Some false
      | Some nm =>
          match allowed_loop nm (attr_value a) attrs attr_contents 0 with
          | None => None
          | Some false => Some false
          | Some true => attrs_loop nattrs' attrs attr_contents
          end
      end
  end.

(** The loop over [n->children]: [xmlNodeIsText] on each child, and the
    assertion that a text node has no children. *)
Fixpoint children_loop (h : store) (cs : list ptr) : option bool :=
  match cs with
  | [] => Some true
  | c :: cs' =>
      match h !! c with
      | None => None
      | Some n2 =>
          if decide (type n2 = XML_TEXT_NODE) then
            match children n2 with
            | [] => children_loop h cs'
            | _ => None
            end
          else Some false
      end
  end.

Definition has_only_text_children_and_allowed_attrs (h : store)
    (n : option ptr) (attrs : option (list string))
    (attr_contents : option (list (option string))) : option bool :=
  match n with
  | None => Some false
  | Some np =>
      match h !! np with
      | None => None
      | Some nd =>
          let attr_check :=
            if decide (type nd = XML_ELEMENT_NODE) then
              match properties nd with
              | [] => Some true
              | nattrs =>
                  match attrs with
                  | None => Some false
                  | Some names => attrs_loop nattrs names attr_contents
                  end
              end
            else Some true in
          match attr_check with
          | None => None
          | Some false => Some false
          | Some true => children_loop h (children nd)
          end
      end
  end.

(** *** What the environment decides

    The functions of [xml.c] call libxml2 and GLib; what those calls
    return is a parameter of every function below. *)
Record env := {
  (** [xmlXPathNewContext] returned a context (not NULL) *)
  new_context_ok : bool;
  (** return codes of [xmlXPathRegisterNs] and [xmlXPathRegisterFuncNS] *)
  register_ns_rc : Z;
  register_func_rc : Z;
  (** [xmlXPathNewParserContext(str, ctxt)]: the new context, or NULL *)
  xmlXPathNewParserContext : option ptr;
  (** [xmlXPathEvalExpr]: the parser context after evaluating the
      expression over the document; the evaluation does not write to the
      document *)
  xmlXPathEvalExpr : string → store → ptr → xmlXPathParserContext;
  (** the content of [find_node_set]'s uninitialised local [pctxt2] *)
  pctxt2 : slot_value;
  (** [xmlNodeGetContent(n)] *)
  xmlNodeGetContent : store → ptr → option (list Z);
  (** the read of [nodeTab[nodeNr]], the entry behind the last node of a
      node set: the pointer libxml2 left there, or nothing when the read
      is not defined because the table is full ([nodeNr = nodeMax]) and
      the entry lies outside the array *)
  nodeTab_end : xmlNodeSet → option (option ptr);
  (** [xmlNewDoc], [xmlDocCopyNode(node, doc, 1)] and
      [xmlDocSetRootElement] together: the store with the new document and
      the new document, or nothing when [xmlNewDoc] returns NULL *)
  new_doc_with_copy : store → ptr → option (store * ptr)
}.

(** *** [my_xmlXPathEvalExpression], xml.c lines 182-226 *)

(** The loop that pops what is left on the value stack and counts it. *)
Fixpoint drain (st : list xmlXPathObject) : Z :=
  match st with
  | [] => 0
  | _ :: st' => 1 + drain st'
  end.

(** The test of [CHECK_CONTEXT]: [None] when [ctxt->doc] dangles. *)
Definition context_unusable (h : store) (ctxt : option xmlXPathContext)
  : option bool :=
  match ctxt with
  | None => Some true
  | Some c =>
      match ctxt_doc c with
      | None => Some true
      | Some d =>
          match h !! d with
          | None => None
          | Some dn => Some (bool_decide (children dn = []))
          end
      end
  end.

(** The result is the object (or NULL) and the events of the call; the
    call has no result when it dereferences an indeterminate or NULL
    parser context. *)
Definition my_xmlXPathEvalExpression (E : env) (str : string) (h : store)
    (ctxt : option xmlXPathContext) (slot0 : slot_value)
  : option (traced (option xmlXPathObject)) :=
  match context_unusable h ctxt with
  | None => None
  | Some true =>
      (* xmlXPatherror( *pctxt, ..., XPATH_INVALID_CTXT); return(NULL); *)
      match slot0 with
      | SlotIndeterminate => None
      | _ => Some (None, [XPathError "XPATH_INVALID_CTXT"])
      end
  | Some false =>
      match ctxt ≫= ctxt_doc, xmlXPathNewParserContext E with
      | Some d, Some p =>
          let pc := xmlXPathEvalExpr E str h d in
          let '(res, rest, err) :=
            if decide (cur pc ≠ 0)
            then (None, valueTab pc, [XPathError "XPATH_EXPR_ERROR"])
            else let '(r, rest) := valuePop (valueTab pc) in (r, rest, []) in
          let stack := drain rest in
          let msg :=
            if decide (stack ≠ 0 ∧ res ≠ None)
            then [Printed "xmlXPathEvalExpression: %d object left on the stack"]
            else [] in
          Some (res,
                [MutexLock; SlotWrite (Some p); MutexUnlock; EvalExpr p]
                ++ err ++ msg
                ++ [MutexLock; FreeParserContext p; SlotWrite None; MutexUnlock])
      | _, _ => None
      end
  end.

(** The slot and the mutex along a sequence of events. *)
Definition slot_step (v : option ptr) (e : event) : option ptr :=
  match e with SlotWrite w => w | _ => v end.

Definition slot_after (v : option ptr) (t : list event) : option ptr :=
  foldl slot_step v t.

Definition lock_step (b : bool) (e : event) : bool :=
  match e with MutexLock => true | MutexUnlock => false | _ => b end.

Definition locked_after (b : bool) (t : list event) : bool :=
  foldl lock_step b t.

(** *** [find_node_set], xml.c lines 236-294 *)

Definition find_node_set (E : env) (xpath : string) (h : store)
    (doc : option ptr) (pctxt : option slot_value)
  : option (traced (option xmlNodeSet)) :=
  if negb (new_context_ok E) then
    Some (None, [Printed "Failed to allocate XPathContext!"])
  else
    let ctxt := {| ctxt_doc := doc |} in
    let w1 := if decide (register_ns_rc E ≠ 0)
              then [Printed "Warning: Unable to register XSLT-Namespace prefix"]
              else [] in
    let w2 := if decide (register_func_rc E ≠ 0)
              then [Printed "Warning: Unable to register XPath extension function"]
              else [] in
    let slot0 := match pctxt with None => pctxt2 E | Some v => v end in
    match my_xmlXPathEvalExpression E xpath h (Some ctxt) slot0 with
    | None => None
    | Some (None, ev) =>
        Some (None, w1 ++ w2 ++ ev ++ [Printed "No XPathObject!"])
    | Some (Some xpobj, ev) =>
        match nodesetval xpobj with
        | None => Some (None, w1 ++ w2 ++ ev ++ [Printed "No nodeset!"])
        | Some ns =>
            if decide (nodeNr ns = 0) then Some (None, w1 ++ w2 ++ ev)
            else Some (Some ns, w1 ++ w2 ++ ev)
        end
    end.

(** *** [find_single_node], xml.c lines 297-308 *)

Definition find_single_node (E : env) (xpath : string) (h : store)
    (doc : option ptr) : option (traced (option ptr)) :=
  match find_node_set E xpath h doc None with
  | None => None
  | Some (None, ev) => Some (None, ev)
  | Some (Some nodes, ev) =>
      let w := if decide (1 < nodeNr nodes)
               then [Printed "%s: %i matching nodes (only 1 expected). Taking first."]
               else [] in
      match nodeTab nodes with
      | [] => None
      | bodyNode :: _ => Some (Some bodyNode, ev ++ w)
      end
  end.

(** *** [unlink_leaf_node_with_attr], xml.c lines 390-408 *)

(** The returned pointer, the cell [*can], the store and the events. *)
Record unlinked := {
  ret : option ptr;
  can_out : option bool;
  store_out : store;
  events : list event
}.

Definition unlink_leaf_node_with_attr (E : env) (xpath : option string)
    (attrs : option (list string))
    (attr_contents : option (list (option string)))
    (h : store) (doc : option ptr) (can : option bool) : option unlinked :=
  match xpath, doc, can with
  | Some xp, Some _, Some _ =>
      match find_single_node E xp h doc with
      | None => None
      | Some (None, ev) =>
          Some {| ret := None; can_out := can; store_out := h; events := ev |}
      | Some (Some n, ev) =>
          match has_only_text_children_and_allowed_attrs h (Some n) attrs attr_contents with
          | None => None
          | Some false =>
              Some {| ret := None; can_out := Some false; store_out := h;
                      events := ev |}
          | Some true =>
              Some {| ret := Some n; can_out := can;
                      store_out := xmlUnlinkNode n h; events := ev |}
          end
      end
  | _, _, _ =>
      Some {| ret := None; can_out := can; store_out := h;
              events := [Printed "assertion 'xpath && doc && can' failed"] |}
  end.

(** *** [copy_node_to_doc], xml.c lines 128-136 *)

(** [None] is the failed [g_assert(doc)]. *)
Definition copy_node_to_doc (E : env) (h : store) (node : option ptr)
  : option (traced (store * option ptr)) :=
  match node with
  | None => Some ((h, None), [Printed "assertion 'node' failed"])
  | Some n =>
      match new_doc_with_copy E h n with
      | None => None
      | Some (h', doc) => Some ((h', Some doc), [])
      end
  end.

(** *** The GLib string functions of [entry_orths_to_string]

    A buffer is modelled by the text it holds, without the terminator. *)

(** [g_strlcpy(dest, src, dest_size)], [dest_size > 0]: the first
    [dest_size - 1] bytes of [src]. *)
Definition g_strlcpy (src : list Z) (dest_size : Z) : list Z :=
  take (Z.to_nat (dest_size - 1)) src.

(** [g_strlcat(dest, src, dest_size)]: appends what fits before the
    terminator, nothing when [dest] already fills the buffer. *)
Definition g_strlcat (dest src : list Z) (dest_size : Z) : list Z :=
  if decide (dest_size ≤ Z.of_nat (length dest)) then dest
  else dest ++ take (Z.to_nat (dest_size - Z.of_nat (length dest) - 1)) src.

(** [g_utf8_skip[b]]: the length of a character from its first byte. *)
Definition g_utf8_skip (b : Z) : nat :=
  if decide (b < 192) then 1
  else if decide (b < 224) then 2
  else if decide (b < 240) then 3
  else if decide (b < 248) then 4
  else if decide (b < 252) then 5
  else if decide (b < 254) then 6
  else 1.

(** [while (n && *s) { s = g_utf8_next_char(s); n--; }] with [s] at
    offset [pos] of the text [src]: the offset reached.  At offset
    [length src] stands the terminator; a read behind it has no result. *)
Fixpoint utf8_offset (n : nat) (src : list Z) (pos : nat) : option nat :=
  match n with
  | O => Some pos
  | S n' =>
      match src !! pos with
      | Some b =>
          if decide (b = 0) then Some pos
          else utf8_offset n' src (pos + g_utf8_skip b)
      | None => if decide (pos = length src) then Some pos else None
      end
  end.

(** [g_utf8_strncpy(dest, src, n)] into a buffer of [dest_size] bytes:
    [strncpy(dest, src, s - src); dest[s - src] = 0;].  No result when the
    terminator is written outside the buffer. *)
Definition g_utf8_strncpy (dest_size : Z) (src : list Z) (n : Z)
  : option (list Z) :=
  match utf8_offset (Z.to_nat n) src 0 with
  | None => None
  | Some pos =>
      if decide (Z.of_nat pos < dest_size) then Some (take pos src) else None
  end.

(** *** [entry_orths_to_string], xml.c lines 432-477 *)

(** The [for] loop over [set->nodeTab], with the buffer [e] of [len]
    bytes.  The test [*n2 && i<set->nodeNr] reads [*n2] first: in front
    of each round that is the node of the round, and after the last round
    it is [last], the entry [nodeTab[nodeNr]], whatever it holds; the
    loop has no result when that read is not defined. *)
Fixpoint orth_loop (E : env) (h : store) (last : option (option ptr))
    (nodes : list ptr) (e : list Z) (len : Z) : option (list Z) :=
  match nodes with
  | [] =>
      match last with
      | None => None
      | Some _ => Some e
      end
  | n2 :: nodes' =>
      let content := xmlNodeGetContent E h n2 in
      let l := Z.of_nat (length e) in
      let e1 := if decide (l ≠ 0) then g_strlcat e (bytes ", ") len else e in
      let e2 := match content with
                | None => g_strlcat e1 (bytes "(null)") len
                | Some c => g_strlcat e1 c len
                end in
      orth_loop E h last nodes' e2 len
  end.

(** [s] is NULL or the text in the caller's buffer of [len] bytes; the
    result is the returned gboolean and the text in the buffer.  The
    message is the untranslated argument of [_()]. *)
Definition entry_orths_to_string (E : env) (h : store) (n : option ptr)
    (len : Z) (s : option (list Z)) : option (traced (bool * option (list Z))) :=
  match n, s with
  | None, _ => Some ((false, s), [Printed "assertion 'n' failed"])
  | Some _, None => Some ((false, s), [Printed "assertion 's' failed"])
  | Some _, Some _ =>
      if decide (0 < len) then
        match copy_node_to_doc E h n with
        | None => None
        | Some ((h', doc), ev0) =>
            match find_node_set E "/entry/form/orth" h' doc None with
            | None => None
            | Some (None, ev) =>
                Some ((false, Some (g_strlcpy (bytes "No nodes (form/orth)!") len)),
                      ev0 ++ ev)
            | Some (Some set, ev) =>
                if decide (nodeNr set = 0) then
                  Some ((false, Some (g_strlcpy (bytes "No nodes (form/orth)!") len)),
                        ev0 ++ ev)
                else
                  match orth_loop E h' (nodeTab_end E set) (nodeTab set) [] len with
                  | None => None
                  | Some e =>
                      match g_utf8_strncpy len e (Z.quot len 2) with
                      | None => None
                      | Some out => Some ((true, Some out), ev0 ++ ev)
                      end
                  end
            end
        end
      else Some ((false, s), [Printed "assertion 'len>0' failed"])
  end.

(** *** Notions used to state the properties *)

(** The call can evaluate: the XPath context is allocated, the document
    has a child, and the parser context [p] is allocated. *)
Definition ready (E : env) (h : store) (d p : ptr) : Prop :=
  new_context_ok E = true ∧
  (∃ dn, h !! d = Some dn ∧ children dn ≠ []) ∧
  xmlXPathNewParserContext E = Some p.

(** The expression is consumed and the result on top of the value stack is
    the node set [ns]. *)
Definition matches (E : env) (xp : string) (h : store) (d : ptr)
    (ns : list ptr) : Prop :=
  cur (xmlXPathEvalExpr E xp h d) = 0 ∧
  ∃ o rest, valueTab (xmlXPathEvalExpr E xp h d) = o :: rest ∧
            nodesetval o = Some {| nodeTab := ns |}.

(** The warning of [find_single_node]. *)
Definition taking_first : event :=
  Printed "%s: %i matching nodes (only 1 expected). Taking first.".

(** [m] is a child of [p], linked both ways. *)
Definition attached (h : store) (m p : ptr) : Prop :=
  ∃ nm pn, h !! m = Some nm ∧ parent nm = Some p ∧
           h !! p = Some pn ∧ m ∈ children pn.

(** The attribute [a] is on the whitelist: some index carries its name
    and, as required value, its value. *)
Definition listed (names : list string) (cs : list (option string))
    (a : xmlAttr) : Prop :=
  ∃ i nm v, attr_name a = Some nm ∧ attr_value a = Some v ∧
            names !! i = Some nm ∧ cs !! i = Some (Some v).

(** The events of a call that evaluates: publish under the mutex,
    evaluate, report, and clear under the mutex. *)
Definition session (p : ptr) (mid : list event) : list event :=
  [MutexLock; SlotWrite (Some p); MutexUnlock; EvalExpr p] ++ mid
  ++ [MutexLock; FreeParserContext p; SlotWrite None; MutexUnlock].

(** What a call reports between evaluation and clearing: nothing, the
    XPath error, or the count of objects left on the stack. *)
Inductive report : list event → Prop :=
  | report_none : report []
  | report_error code : report [XPathError code]
  | report_left msg : report [Printed msg].

(** *** The joined text as the specification words it *)

(** The text a node contributes: its content, or the placeholder when it
    has none. *)
Definition piece (c : option (list Z)) : list Z :=
  match c with
  | None => bytes "(null)"
  | Some t => t
  end.

(** The pieces in result order; [", "] goes before a piece whenever some
    text precedes it. *)
Fixpoint join_from (acc : list Z) (cs : list (option (list Z))) : list Z :=
  match cs with
  | [] => acc
  | c :: cs' =>
      join_from ((match acc with [] => acc | _ => acc ++ bytes ", " end) ++ piece c) cs'
  end.

(** The text [e] is made of the characters [chs], each as long as its
    first byte announces. *)
Inductive Chars : list Z → list (list Z) → Prop :=
  | Chars_nil : Chars [] []
  | Chars_cons b t rest chs :
      b ≠ 0 → length (b :: t) = g_utf8_skip b → Chars rest chs →
      Chars ((b :: t) ++ rest) ((b :: t) :: chs).

End Xml.

(** ** A small dictionary entry and some environments, used to run the
    functions *)

Module Sample.
Import Xml.

Definition node (t : xmlElementType) (nm : string) (props : list xmlAttr)
    (par : option ptr) (ch : list ptr) : xmlNode :=
  {| type := t; name := nm; properties := props; parent := par; children := ch |}.

Definition attr (nm v : string) : xmlAttr :=
  {| attr_name := Some nm; attr_value := Some v |}.

(** The document 1 with
    [<entry><form><orth type="n">text</orth><orth>text</orth></form></entry>]:
    entry 2, form 3, the orth elements 4 and 6, their texts 5 and 7. *)
Definition entry_doc : store :=
  list_to_map
    [ (1%positive, node XML_DOCUMENT_NODE "" [] None [2%positive]);
      (2%positive, node XML_ELEMENT_NODE "entry" [] (Some 1%positive) [3%positive]);
      (3%positive, node XML_ELEMENT_NODE "form" [] (Some 2%positive)
                        [4%positive; 6%positive]);
      (4%positive, node XML_ELEMENT_NODE "orth" [attr "type" "n"]
                        (Some 3%positive) [5%positive]);
      (5%positive, node XML_TEXT_NODE "text" [] (Some 4%positive) []);
      (6%positive, node XML_ELEMENT_NODE "orth" [] (Some 3%positive) [7%positive]);
      (7%positive, node XML_TEXT_NODE "text" [] (Some 6%positive) []) ].

Definition nodeset_object (ns : list ptr) : xmlXPathObject :=
  {| xo_type := XPATH_NODESET; nodesetval := Some {| nodeTab := ns |};
     boolval := false |}.

Definition boolean_object (b : bool) : xmlXPathObject :=
  {| xo_type := XPATH_BOOLEAN; nodesetval := None; boolval := b |}.

Definition number_object : xmlXPathObject :=
  {| xo_type := XPATH_NUMBER; nodesetval := None; boolval := false |}.

(** An environment in which every allocation succeeds and every
    evaluation ends in the parser context [pc].  The table of a node set
    has room behind its nodes, and the entry there is NULL. *)
Definition env_of (pc : xmlXPathParserContext) : env :=
  {| new_context_ok := true;
     register_ns_rc := 0;
     register_func_rc := 0;
     xmlXPathNewParserContext := Some 100%positive;
     xmlXPathEvalExpr := λ _ _ _, pc;
     pctxt2 := SlotIndeterminate;
     xmlNodeGetContent := λ _ _, None;
     nodeTab_end := λ _, Some None;
     new_doc_with_copy := λ _ _, None |}.

(** The expression is consumed and selects the nodes [ns]. *)
Definition selecting (ns : list ptr) : env :=
  env_of {| cur := 0; valueTab := [nodeset_object ns] |}.

(** ["//orth]"]: the evaluation selects the orth elements and stops
    before the unmatched bracket. *)
Definition malformed : env :=
  env_of {| cur := chr "]";
            valueTab := [nodeset_object [4%positive; 6%positive]] |}.

(** ["//orth["]: the expression is consumed and rejected, no object is
    left. *)
Definition no_object : env :=
  env_of {| cur := 0; valueTab := [] |}.

(** ["count(//orth)"]: the result is a number. *)
Definition number_result : env :=
  env_of {| cur := 0; valueTab := [number_object] |}.

(** ["boolean(//orth)"]: the result is a boolean. *)
Definition boolean_result : env :=
  env_of {| cur := 0; valueTab := [boolean_object true] |}.

(** The copy of an entry with three orth elements that
    [copy_node_to_doc] makes: document 11, entry 12, form 13, the orth
    elements 14, 16 and 18. *)
Definition entry_copy : store :=
  list_to_map
    [ (11%positive, node XML_DOCUMENT_NODE "" [] None [12%positive]);
      (12%positive, node XML_ELEMENT_NODE "entry" [] (Some 11%positive) [13%positive]);
      (13%positive, node XML_ELEMENT_NODE "form" [] (Some 12%positive)
                         [14%positive; 16%positive; 18%positive]);
      (14%positive, node XML_ELEMENT_NODE "orth" [] (Some 13%positive) []);
      (16%positive, node XML_ELEMENT_NODE "orth" [] (Some 13%positive) []);
      (18%positive, node XML_ELEMENT_NODE "orth" [] (Some 13%positive) []) ].

(** An environment for [entry_orths_to_string]: the copy is [entry_copy],
    the query selects its three orth elements, and their contents are
    [c1], [c2], [c3]. *)
Definition three_orths (c1 c2 c3 : option (list Z)) : env :=
  {| new_context_ok := true;
     register_ns_rc := 0;
     register_func_rc := 0;
     xmlXPathNewParserContext := Some 100%positive;
     xmlXPathEvalExpr := λ _ _ _,
       {| cur := 0;
          valueTab := [nodeset_object [14%positive; 16%positive; 18%positive]] |};
     pctxt2 := SlotIndeterminate;
     xmlNodeGetContent := λ _ n,
       if decide (n = 14%positive) then c1
       else if decide (n = 16%positive) then c2
       else if decide (n = 18%positive) then c3
       else None;
     nodeTab_end := λ _, Some None;
     new_doc_with_copy := λ h _, Some (h ∪ entry_copy, 11%positive) |}.

(** The same with a table that has no entry behind its nodes. *)
Definition full_table (c1 c2 c3 : option (list Z)) : env :=
  let E := three_orths c1 c2 c3 in
  {| new_context_ok := new_context_ok E;
     register_ns_rc := register_ns_rc E;
     register_func_rc := register_func_rc E;
     xmlXPathNewParserContext := xmlXPathNewParserContext E;
     xmlXPathEvalExpr := xmlXPathEvalExpr E;
     pctxt2 := pctxt2 E;
     xmlNodeGetContent := xmlNodeGetContent E;
     nodeTab_end := λ _, None;
     new_doc_with_copy := new_doc_with_copy E |}.

End Sample.

(** ** The XPath extension function around the brace scanner
    ([freedict_xpath_extension_unbalanced_braces], xml.c lines 19-104) *)

Module Extension.
Import Braces Xml.

(** How the call leaves the XPath evaluation: with the arity error set,
    without a value (the early [return] after popping the argument), or
    with the boolean it hands to [xmlXPathReturnBoolean]. *)
Inductive outcome := ArityError | NoValue | Boolean (b : bool).

(** The [for] loop over the node set.  [content n] is what
    [xmlNodeGetContent(n)] returns: NULL, or the memory from the returned
    pointer to the end of its block.  [result] is the variable of that
    name. *)
Fixpoint nodes_loop (stack0 : list Z) (content : ptr → option (list Z))
    (nodes : list ptr) (result : bool) : option bool :=
  match nodes with
  | [] => Some result
  | n :: nodes' =>
      match content n with
      | None => nodes_loop stack0 content nodes' result
      | Some c =>
          match contains_unbalanced_braces stack0 (Some c) with
          | None => None
          | Some true => Some true
          | Some false => nodes_loop stack0 content nodes' false
          end
      end
  end.

(** [ns] is what [xmlXPathPopNodeSet] returns and [error] what
    [xmlXPathCheckError] says after it. *)
Definition freedict_xpath_extension_unbalanced_braces (stack0 : list Z)
    (content : ptr → option (list Z)) (nargs : Z) (ns : option xmlNodeSet)
    (error : bool) : option outcome :=
  if decide (nargs ≠ 1) then Some ArityError
  else
    match ns with
    | None => Some NoValue
    | Some set =>
        if error then Some NoValue
        else Boolean <$> nodes_loop stack0 content (nodeTab set) false
    end.

(** The memory of the content of each node: the text [text n] as a C
    string, followed by [behind n]. *)
Definition content_of (text : ptr → option (list Z)) (behind : ptr → list Z)
    (n : ptr) : option (list Z) :=
  (λ s, cstring s (behind n)) <$> text n.

(** A byte the scanner looks at. *)
Definition brace (c : Z) : bool := opener c || bool_decide (is_Some (closer_of c)).

(** Openers minus closers. *)
Fixpoint excess (s : list Z) : Z :=
  match s with
  | [] => 0
  | c :: s' =>
      (if opener c then 1 else if bool_decide (is_Some (closer_of c)) then -1 else 0)
      + excess s'
  end.

End Extension.

(** ** Label and value lists ([values.c]) *)

Module ValuesC.

(** [Values]: the two string pointers [label] and [value] (the type is
    declared in [values.h]; an initialiser gives the label first).  [S] is
    what stands for a string: its text, or its address. *)
Record Values (S : Type) := { label : option S; value : option S }.
Arguments label {S} _.
Arguments value {S} _.
Arguments Build_Values {S} _ _.

(** The text of a C string, without the terminator.  [N_()] and [_()]
    leave it as it is. *)
Abbreviation text := (list Z).

Definition INT_MAX : Z := 2147483647.

(** *** [index2value], values.c lines 128-137 *)

(** [values] points at the first entry of [arr], the rest of the array
    object; a read behind it has no result.  The loop test reads
    [values->value] only when [i<index]. *)
Fixpoint index2value_loop (arr : list (Values text)) (i index : Z)
  : option (option text) :=
  match arr with
  | [] => None
  | e :: arr' =>
      if decide (i < index) then
        match value e with
        | Some _ => index2value_loop arr' (i + 1) index
        | None => Some None
        end
      else Some (value e)
  end.

Definition index2value (values : option (list (Values text))) (index : Z)
  : option (option text) :=
  match values with
  | None => Some None
  | Some arr => index2value_loop arr 0 index
  end.

(** *** [value2index], values.c lines 143-157 *)

(** [i++] on [INT_MAX] has no result. *)
Fixpoint value2index_loop (arr : list (Values text)) (v : text) (i : Z)
  : option Z :=
  match arr with
  | [] => None
  | e :: arr' =>
      match value e with
      | None => Some (-1)
      | Some w =>
          if decide (v = w) then Some i
          else if decide (i = INT_MAX) then None
          else value2index_loop arr' v (i + 1)
      end
  end.

Definition value2index (values : option (list (Values text)))
    (v : option text) : option Z :=
  match values with
  | None => Some (-1)
  | Some arr =>
      match v with
      | None => Some 0
      | Some t => value2index_loop arr t 0
      end
  end.

(** *** Allocated blocks *)

(** The bytes of a block; [None] is a byte never written. *)
Abbreviation block := (list (option Z)).

(** [g_malloc(n)]: a block of [usable n] bytes; the caller asked for [n]. *)
Definition g_malloc (usable : Z → Z) (n : Z) : block :=
  replicate (Z.to_nat (usable n)) None.

(** [b[off] = x]; no result outside the block. *)
Definition poke (b : block) (off : Z) (x : Z) : option block :=
  if decide (0 ≤ off < Z.of_nat (length b))
  then Some (<[Z.to_nat off := Some x]> b) else None.

Fixpoint poke_all (b : block) (off : Z) (xs : list Z) : option block :=
  match xs with
  | [] => Some b
  | x :: xs' => b' ← poke b off x; poke_all b' (off + 1) xs'
  end.

(** [strncpy(b + off, src, n)]: exactly [n] bytes, zeros after the text. *)
Definition strncpy (b : block) (off : Z) (src : text) (n : Z) : option block :=
  poke_all b off (take (Z.to_nat n) (src ++ replicate (Z.to_nat n) 0)).

(** [strcpy(b + off, src)]: the text and its terminator. *)
Definition strcpy (b : block) (off : Z) (src : text) : option block :=
  poke_all b off (src ++ [0]).

(** The C string at the start of a block; no result when a byte never
    written or the end of the block comes before a terminator. *)
Fixpoint c_string (b : block) : option text :=
  match b with
  | [] => None
  | None :: _ => None
  | Some x :: b' => if decide (x = 0) then Some [] else (x ::.) <$> c_string b'
  end.

(** *** [Values2GSList], values.c lines 36-59 *)

(** A [GSList] is the list of its [data] blocks, first element first;
    NULL is the empty list, and [g_slist_prepend] does not fail.  The
    counter [i] is not used.  A label that [int lenlabel] cannot hold has
    no result. *)
Fixpoint Values2GSList_loop (usable : Z → Z) (arr : list (Values text))
    (g : list block) : option (list block) :=
  match arr with
  | [] => None
  | e :: arr' =>
      match label e with
      | None => Some g
      | Some l =>
          match value e with
          | None => Some g
          | Some v =>
              if decide (INT_MAX < Z.of_nat (length l)) then None
              else
                let lenlabel := Z.of_nat (length l) in
                let data := g_malloc usable (lenlabel + Z.of_nat (length v) + 1) in
                d1 ← strncpy data 0 l lenlabel;
                d2 ← poke d1 lenlabel 9;
                d3 ← strcpy d2 (lenlabel + 1) v;
                Values2GSList_loop usable arr' (d3 :: g)
          end
      end
  end.

Definition Values2GSList (usable : Z → Z) (values : option (list (Values text)))
  : option (list block) :=
  match values with
  | None => Some []
  | Some arr => Values2GSList_loop usable arr []
  end.

(** *** [GSList2Values], values.c lines 72-102 *)

(** [index(s, '\t') - s]. *)
Fixpoint index_tab (s : text) : option nat :=
  match s with
  | [] => None
  | c :: s' => if decide (c = 9) then Some 0%nat else S <$> index_tab s'
  end.

(** The loop over the list, with the entries it writes to [v0]; the last
    one is the terminator.  The entries hold the texts of the strings
    allocated for them.  [None] is the failed [g_assert(value)], a string
    without terminator, or a length for which [lenlabel+1] or
    [lenvalue+1] is more than [int] can hold; what [g_printerr] prints is
    left out. *)
Fixpoint GSList2Values_loop (usable : Z → Z) (g : list block)
  : option (list (Values text)) :=
  match g with
  | [] => Some [ {| label := None; value := None |} ]
  | data :: g' =>
      s ← c_string data;
      k ← index_tab s;
      if decide (INT_MAX ≤ Z.of_nat k) then None
      else
        let lenlabel := Z.of_nat k in
        l1 ← strncpy (g_malloc usable (lenlabel + 1)) 0 s lenlabel;
        l2 ← poke l1 lenlabel 0;
        let val := drop (S k) s in
        if decide (INT_MAX ≤ Z.of_nat (length val)) then None
        else
          let lenvalue := Z.of_nat (length val) in
          v1 ← strncpy (g_malloc usable (lenvalue + 1)) 0 val (lenvalue + 1);
          l ← c_string l2;
          v ← c_string v1;
          rest ← GSList2Values_loop usable g';
          Some ({| label := Some l; value := Some v |} :: rest)
  end.

Definition GSList2Values (usable : Z → Z) (g : list block)
  : option (option (list (Values text))) :=
  match g with
  | [] => Some None
  | _ => Some <$> GSList2Values_loop usable g
  end.

(** *** [my_free_values_array], values.c lines 105-122 *)

(** The six global tables. *)
Record globals := {
  pos_values : option positive;
  num_values : option positive;
  domain_values : option positive;
  register_values : option positive;
  xr_values : option positive;
  gen_values : option positive
}.

(** What the call does to the heap, in order. *)
Inductive mem_event :=
  | GFree (p : positive)        (* g_free(p), p not NULL *)
  | StoreNull (p : positive).   (* the store of NULL to the pointer at p *)

Global Instance mem_event_eq_dec : EqDecision mem_event.
Proof. solve_decision. Defined.

(** The loop that frees the strings of the entries ([g_free(NULL)] does
    nothing); no result when it runs off the array. *)
Fixpoint free_loop (arr : list (Values positive)) : option (list mem_event) :=
  match arr with
  | [] => None
  | e :: arr' =>
      match value e with
      | None => Some []
      | Some pv =>
          (λ r, match label e with Some pl => [GFree pl] | None => [] end
                ++ GFree pv :: r) <$> free_loop arr'
      end
  end.

(** [v] is the argument, [star_v] the pointer it points to and [arrays]
    the arrays in memory.  The message of the failed [g_return_if_fail] is
    left out. *)
Definition my_free_values_array (G : globals)
    (arrays : positive → option (list (Values positive)))
    (v : option positive) (star_v : option positive)
  : option (list mem_event) :=
  match v with
  | None => Some []
  | Some vp =>
      if decide (star_v = gen_values G) then Some []
      else if decide (star_v = xr_values G) then Some []
      else if decide (star_v = pos_values G) then Some []
      else if decide (star_v = num_values G) then Some []
      else if decide (star_v = domain_values G) then Some []
      else
        frees ← match star_v with
                | None => Some []
                | Some a => arrays a ≫= free_loop
                end;
        Some (frees ++ [GFree vp; StoreNull vp])
  end.

(** *** The default tables, values.c lines 160-271 *)

Definition entry (l v : string) : Values text :=
  {| label := Some (bytes l); value := Some (bytes v) |}.

Definition table_end : Values text := {| label := None; value := None |}.

Definition xr_values_default : list (Values text) :=
  [ entry "Undetermined" ""; entry "Antonym" "ant"; entry "Hypernym" "hyper";
    entry "Hyponym" "hypo"; entry "Synonym" "syn"; entry "Derived from" "der";
    table_end ].

Definition pos_values_default : list (Values text) :=
  [ entry "None" ""; entry "_Noun" "n"; entry "Verb" "v";
    entry "Transitive Verb" "vt"; entry "Intransitive Verb" "vi";
    entry "Transitive and intransitive Verb" "vti"; entry "Adverb" "adv";
    entry "_Adjective" "adj"; entry "Conjunction" "conj";
    entry "_Preposition" "prep"; entry "_Interjection" "interj";
    entry "Pronoun" "pron"; entry "Article" "art"; entry "Numeral" "num";
    entry "Imitative" "imit"; entry "Abbreviation" "abbr"; entry "Phrase" "phra";
    table_end ].

Definition gen_values_default : list (Values text) :=
  [ entry "None" ""; entry "Masculine" "m"; entry "_Feminine" "f";
    entry "Neuter" "n"; entry "Common" "i"; entry "Masc. & Fem." "mf";
    entry "Masc., Fem. & Neut." "mfn"; table_end ].

Definition num_values_default : list (Values text) :=
  [ entry "None" ""; entry "_Singular" "sg"; entry "Dual" "du";
    entry "Plural" "pl"; table_end ].

Definition domain_values_default : list (Values text) :=
  [ entry "_None" ""; entry "_Agriculture" "agr"; entry "Astronomy" "astr";
    entry "Automobile" "aut"; entry "_Biology" "bio"; entry "B_otany" "bot";
    entry "_Chemistry" "chem"; entry "_Electrotechnics" "el";
    entry "_Finance" "fin"; entry "_Geography" "geo"; entry "Geolog_y" "geol";
    entry "Grammar" "gram"; entry "_History" "hist";
    entry "_Information Technology" "it"; entry "_Law" "law";
    entry "_Mathematics" "math"; entry "Me_dicine" "med"; entry "Military" "mil";
    entry "M_usic" "mus"; entry "Myth_ology" "myt"; entry "_Physics" "phy";
    entry "Politics" "pol"; entry "_Religion" "rel"; entry "_Sexual" "sex";
    entry "Sport" "sport"; entry "_Technology" "tech"; table_end ].

Definition register_values_default : list (Values text) :=
  [ entry "_None" ""; entry "_Official" "official"; entry "_Formal" "formal";
    entry "Ch_ildren Speech" "chil"; entry "_Colloquial" "col";
    entry "_Slang" "slang"; entry "_Vulgar" "vulg"; entry "_Taboo" "taboo";
    entry "_Ironic" "ironic"; entry "_Facetious" "facetious"; table_end ].

(** *** Notions used to state the properties *)

(** An entry with both strings. *)
Definition complete (e : Values text) : Prop :=
  is_Some (label e) ∧ is_Some (value e).

(** The entries of an array in front of the first one without value. *)
Fixpoint valued (arr : list (Values text)) : list text :=
  match arr with
  | [] => []
  | e :: arr' => match value e with Some v => v :: valued arr' | None => [] end
  end.

(** The array ends with an entry without value: [arr] is some entries with
    value, one without, and whatever follows. *)
Definition terminated (arr : list (Values text)) : Prop :=
  (length (valued arr) < length arr)%nat.

(** The index of the first [v] in [l], or -1. *)
Definition first_index (v : text) (l : list text) : Z :=
  match list_find (λ w, v = w) l with
  | Some (k, _) => Z.of_nat k
  | None => -1
  end.

(** The string [Values2GSList] makes of an entry. *)
Definition joined (l v : text) : text := l ++ 9 :: v.

(** The labels and values of the entries in front of the first one that
    lacks one of the two. *)
Fixpoint pairs (arr : list (Values text)) : list (text * text) :=
  match arr with
  | [] => []
  | e :: arr' =>
      match label e, value e with
      | Some l, Some v => (l, v) :: pairs arr'
      | _, _ => []
      end
  end.

(** The array has an entry that lacks its label or its value. *)
Definition ended (arr : list (Values text)) : Prop :=
  (length (pairs arr) < length arr)%nat.

(** The entry [GSList2Values] makes of a label and a value. *)
Definition entry_of (lv : text * text) : Values text :=
  {| label := Some lv.1; value := Some lv.2 |}.

(** A label and a value that both conversions can handle: no NUL in
    them, no TAB in the label, and lengths that [int] holds with one to
    spare. *)
Definition convertible (lv : text * text) : Prop :=
  nul_free lv.1 ∧ nul_free lv.2 ∧ (9 ∉ lv.1) ∧
  Z.of_nat (length lv.1) < INT_MAX ∧ Z.of_nat (length lv.2) < INT_MAX.

(** The entries of an array of pointers in front of the first one without
    value. *)
Fixpoint front (arr : list (Values positive)) : list (Values positive) :=
  match arr with
  | [] => []
  | e :: arr' => match value e with Some _ => e :: front arr' | None => [] end
  end.

(** The five tables that [my_free_values_array] leaves alone. *)
Definition protected (G : globals) : list (option positive) :=
  [gen_values G; xr_values G; pos_values G; num_values G; domain_values G].

(** The six default tables. *)
Definition default_tables : list (list (Values text)) :=
  [xr_values_default; pos_values_default; gen_values_default;
   num_values_default; domain_values_default; register_values_default].

End ValuesC.

(** * Properties *)

Module BracesFacts.
Import Braces.

Lemma opener_cases c :
  opener c = true ↔ c = chr "(" ∨ c = chr "[" ∨ c = chr "{".
Proof.
  unfold opener. rewrite !orb_true_iff, !bool_decide_eq_true. tauto.
Qed.

Lemma closer_of_opener c o : closer_of c = Some o → opener o = true.
Proof.
  unfold closer_of. intros H. apply opener_cases.
  repeat case_decide; simplify_eq; auto.
Qed.

Lemma closer_not_opener c o : closer_of c = Some o → opener c = false.
Proof.
  unfold closer_of. intros H.
  repeat case_decide; simplify_eq; reflexivity.
Qed.

Lemma holds_length f stk :
  holds f stk → Z.of_nat (length stk) = 100 - stackend f.
Proof.
  intros (Hl & Hr & Hd & _). subst stk. rewrite length_drop. lia.
Qed.

Lemma holds_init stack0 :
  length stack0 = 100%nat →
  holds {| stack := stack0; stackend := sizeof_stack |} [].
Proof.
  intros Hl. unfold holds, sizeof_stack; simpl. repeat split; try lia.
  - apply drop_ge. lia.
  - constructor.
Qed.

Lemma drop_insert_here {A} (l : list A) i x :
  (i < length l)%nat → drop i (<[i:=x]> l) = x :: drop (S i) l.
Proof.
  intros Hi. erewrite drop_S by (by apply list_lookup_insert_eq).
  f_equal. apply drop_insert_lt. lia.
Qed.

Lemma push_ok b f stk :
  holds f stk → opener b = true → (length stk < 100)%nat →
  ∃ f', cub_push b f = (true, f') ∧ holds f' (b :: stk).
Proof.
  intros Hh Hb Hlt. pose proof (holds_length _ _ Hh) as Hlen.
  destruct Hh as (Hl & Hr & Hd & Hop).
  unfold cub_push. case_decide; [lia|].
  eexists; split; [reflexivity|]. unfold holds; simpl.
  rewrite length_insert. repeat split; try lia.
  - rewrite drop_insert_here by lia.
    replace (S (Z.to_nat (stackend f - 1))) with (Z.to_nat (stackend f)) by lia.
    by rewrite Hd.
  - by constructor.
Qed.

Lemma push_full b f stk :
  holds f stk → ¬ (length stk < 100)%nat → cub_push b f = (false, f).
Proof.
  intros Hh Hge. pose proof (holds_length _ _ Hh) as Hlen.
  destruct Hh as (Hl & Hr & Hd & Hop).
  unfold cub_push. case_decide; [done | lia].
Qed.

Lemma pop_ok f t stk :
  holds f (t :: stk) →
  ∃ f', cub_pop f = (t, f') ∧ holds f' stk.
Proof.
  intros Hh. pose proof (holds_length _ _ Hh) as Hlen. simpl in Hlen.
  destruct Hh as (Hl & Hr & Hd & Hop).
  unfold cub_pop, sizeof_stack. case_decide; [lia|].
  destruct (stack f !! Z.to_nat (stackend f)) as [x|] eqn:Hx.
  - erewrite drop_S in Hd by exact Hx. simplify_eq. simpl.
    eexists; split; [reflexivity|]. unfold holds; simpl.
    repeat split; try lia.
    + by replace (Z.to_nat (stackend f + 1)) with (S (Z.to_nat (stackend f))) by lia.
    + by inversion Hop.
  - apply lookup_ge_None in Hx. lia.
Qed.

Lemma pop_empty f : holds f [] → cub_pop f = (chr "E", f).
Proof.
  intros Hh. pose proof (holds_length _ _ Hh) as Hlen. simpl in Hlen.
  unfold cub_pop, sizeof_stack. case_decide; [done | lia].
Qed.

Lemma finish_spec f stk : holds f stk → cub_finish f = scan_spec 100 [] stk.
Proof.
  intros Hh. unfold cub_finish. destruct stk as [|t stk].
  - by rewrite (pop_empty _ Hh).
  - destruct (pop_ok _ _ _ Hh) as (f' & -> & _). simpl.
    destruct Hh as (_ & _ & _ & Hop). inversion Hop as [|? ? Ht _]; subst.
    apply opener_cases in Ht. case_decide; [|done].
    exfalso. destruct Ht as [->| [->| ->]]; discriminate.
Qed.

(** One loop body against one step of the specification's scan. *)
Lemma switch_spec c f stk :
  holds f stk →
  match cub_switch c f with
  | None => ∀ s, scan_spec 100 (c :: s) stk = true
  | Some f' => ∃ stk', holds f' stk' ∧
                 ∀ s, scan_spec 100 (c :: s) stk = scan_spec 100 s stk'
  end.
Proof.
  intros Hh.
  destruct (opener c) eqn:Hop.
  - (* an opener: push *)
    assert (cub_switch c f =
            let '(ok, f') := cub_push c f in if ok then Some f' else None) as ->.
    { apply opener_cases in Hop. unfold cub_switch.
      destruct Hop as [->| [->| ->]]; reflexivity. }
    destruct (decide (length stk < 100)%nat) as [Hlt|Hge].
    + destruct (push_ok c _ _ Hh Hop Hlt) as (f' & -> & Hh').
      exists (c :: stk). split; [done|]. intros s. simpl. rewrite Hop.
      by case_decide.
    + rewrite (push_full c _ _ Hh Hge). intros s. simpl. rewrite Hop.
      by case_decide.
  - destruct (closer_of c) as [o|] eqn:Hcl.
    + (* a closer: pop and compare *)
      assert (cub_switch c f =
              let '(p, f') := cub_pop f in
              if decide (p = o) then Some f' else None) as ->.
      { unfold closer_of in Hcl. unfold cub_switch.
        repeat case_decide; simplify_eq; reflexivity. }
      destruct stk as [|t stk].
      * rewrite (pop_empty _ Hh). case_decide as HE.
        { apply closer_of_opener, opener_cases in Hcl. subst o.
          exfalso. destruct Hcl as [?| [?| ?]]; discriminate. }
        intros s. simpl. by rewrite Hop, Hcl.
      * destruct (pop_ok _ _ _ Hh) as (f' & -> & Hh').
        case_decide as Ht.
        { exists stk. split; [done|]. intros s. simpl. rewrite Hop, Hcl.
          by case_decide. }
        intros s. simpl. rewrite Hop, Hcl. by case_decide.
    + (* any other byte is skipped *)
      assert (cub_switch c f = Some f) as ->.
      { unfold opener in Hop. unfold closer_of in Hcl.
        rewrite !orb_false_iff, !bool_decide_eq_false in Hop.
        unfold cub_switch. repeat case_decide; simplify_eq; tauto. }
      exists stk. split; [done|]. intros s. simpl. by rewrite Hop, Hcl.
Qed.

(** The loop on a non-empty C string computes the specification's scan,
    whatever follows the terminator. *)
Lemma cub_loop_spec s : ∀ f stk rest,
  s ≠ [] → nul_free s → holds f stk →
  cub_loop (cstring s rest) f = Some (scan_spec 100 s stk).
Proof.
  induction s as [|c s IH]; intros f stk rest Hne Hnul Hh; [done|].
  inversion Hnul as [|? ? Hc Hs]; subst.
  pose proof (switch_spec c f stk Hh) as Hsw.
  unfold cstring. rewrite <- app_comm_cons. cbn [cub_loop].
  destruct (cub_switch c f) as [f'|].
  - destruct Hsw as (stk' & Hh' & Hstep). rewrite Hstep.
    destruct s as [|c' s].
    + simpl. f_equal. by apply finish_spec.
    + inversion Hs; subst. rewrite <- app_comm_cons.
      case_decide; [done|]. rewrite app_comm_cons.
      by apply (IH f' stk' rest).
  - by rewrite Hsw.
Qed.

(** A balanced piece leaves the scan where it found it, as long as the
    stack has room for its nesting depth. *)
Lemma scan_balanced cap d s :
  Balanced d s → ∀ stk t, (length stk + d ≤ cap)%nat →
  scan_spec cap (s ++ t) stk = scan_spec cap t stk.
Proof.
  induction 1 as [d|d c s Hop Hcl _ IH|d o c s1 s2 Hcl _ IH1 _ IH2];
    intros stk t Hroom.
  - reflexivity.
  - simpl. rewrite Hop, Hcl. by apply IH.
  - simpl. rewrite (closer_of_opener _ _ Hcl).
    case_decide; [|lia]. rewrite <- app_assoc.
    rewrite IH1 by (simpl; lia). simpl.
    rewrite (closer_not_opener _ _ Hcl), Hcl.
    case_decide; [|done]. apply IH2. lia.
Qed.

Lemma Balanced_mono d s : Balanced d s → ∀ d', (d ≤ d')%nat → Balanced d' s.
Proof.
  induction 1 as [d|d c s Hop Hcl _ IH|d o c s1 s2 Hcl _ IH1 _ IH2];
    intros d' Hle.
  - constructor.
  - constructor; auto.
  - destruct d' as [|d']; [lia|].
    constructor; [done | apply IH1; lia | apply IH2; lia].
Qed.

Lemma closes_skip cap stk c s :
  opener c = false → closer_of c = None →
  Closes cap stk s → Closes cap stk (c :: s).
Proof.
  intros Hop Hcl. destruct stk as [|o stk]; simpl.
  - by constructor.
  - intros (s1 & c' & s2 & -> & Hc' & Hb & Hrest).
    exists (c :: s1), c', s2. repeat split; try done. by constructor.
Qed.

Lemma closes_open cap stk o c s1 s2 :
  (length stk < cap)%nat → closer_of c = Some o →
  Balanced (cap - S (length stk)) s1 → Closes cap stk s2 →
  Closes cap stk (o :: s1 ++ c :: s2).
Proof.
  intros Hlt Hcl Hb1. destruct stk as [|t stk]; simpl in *.
  - intros Hb2. destruct cap as [|cap]; [lia|].
    constructor; [done | | done].
    by replace (S cap - 1)%nat with cap in Hb1 by lia.
  - intros (s3 & c' & s4 & -> & Hc' & Hb3 & Hrest).
    exists (o :: s1 ++ c :: s3), c', s4.
    split; [simpl; f_equal; by rewrite <- app_assoc|]. repeat split; try done.
    replace (cap - S (length stk))%nat
      with (S (cap - S (S (length stk)))) in * by lia.
    by constructor.
Qed.

Lemma scan_closes cap s : ∀ stk,
  scan_spec cap s stk = false → Closes cap stk s.
Proof.
  induction s as [|c s IH]; intros stk; simpl.
  - destruct stk; [constructor | done].
  - destruct (opener c) eqn:Hop.
    + case_decide as Hlt; [|done]. intros Hs.
      destruct (IH _ Hs) as (s1 & c' & s2 & -> & Hc' & Hb & Hrest).
      by apply closes_open.
    + destruct (closer_of c) as [o|] eqn:Hcl.
      * destruct stk as [|t stk]; [done|]. case_decide; [|done]. subst t.
        intros Hs. exists [], c, s.
        split; [done|]. split; [done|]. split; [constructor | by apply IH].
      * intros Hs. apply closes_skip; auto.
Qed.

(** The specification's scan with a stack of capacity [cap] accepts exactly
    the strings balanced with nesting depth at most [cap]. *)
Lemma scan_spec_balanced cap s :
  scan_spec cap s [] = false ↔ Balanced cap s.
Proof.
  split.
  - apply (scan_closes cap s []).
  - intros Hb. rewrite <- (app_nil_r s).
    rewrite (scan_balanced cap cap s Hb [] []) by (simpl; lia). done.
Qed.

Lemma nested_balanced o c n :
  closer_of c = Some o → Balanced n (repeat o n ++ repeat c n).
Proof.
  intros Hcl. induction n as [|n IH]; [constructor|].
  cbn [repeat]. rewrite (repeat_cons n c), <- app_comm_cons, app_assoc.
  constructor; [done | done | constructor].
Qed.

(** C2 (as amended): on every non-empty C string the scanner computes the
    scan the specification describes, with a stack of 100 openers: push on
    an opener, pop and compare on a closer; a mismatch, a closer on the
    empty stack, the 101st pending opener and a non-empty stack at the end
    all give TRUE.  It gives FALSE exactly on the strings whose brackets
    are closed in the order opened and are nested at most 100 deep.  The
    result does not depend on the initial content of the local array nor
    on the memory behind the terminator. *)
Theorem C2_scan_refines_spec (stack0 s rest : list Z) :
  length stack0 = 100%nat → s ≠ [] → nul_free s →
  contains_unbalanced_braces stack0 (Some (cstring s rest))
    = Some (scan_spec 100 s []) ∧
  (contains_unbalanced_braces stack0 (Some (cstring s rest)) = Some false
     ↔ Balanced 100 s).
Proof.
  intros Hl Hne Hnul.
  assert (contains_unbalanced_braces stack0 (Some (cstring s rest))
          = Some (scan_spec 100 s [])) as Heq.
  { unfold contains_unbalanced_braces.
    apply cub_loop_spec; auto using holds_init. }
  split; [exact Heq|]. rewrite Heq, <- scan_spec_balanced.
  split; [by intros [= ->] | by intros ->].
Qed.

Lemma C2_scan_refines_spec_witness :
  contains_unbalanced_braces (repeat 0 100) (Some (cstring (bytes "(a[b]{c})") []))
    = Some false ∧
  contains_unbalanced_braces (repeat 0 100) (Some (cstring (bytes "(a[b]{c)}") []))
    = Some true.
Proof.
  split.
  - refine (proj1 (C2_scan_refines_spec (repeat 0 100) (bytes "(a[b]{c})") [] _ _ _)).
    + reflexivity.
    + discriminate.
    + repeat constructor; discriminate.
  - refine (proj1 (C2_scan_refines_spec (repeat 0 100) (bytes "(a[b]{c)}") [] _ _ _)).
    + reflexivity.
    + discriminate.
    + repeat constructor; discriminate.
Defined.

(** C2 (as stated) fails: the brackets of [deep] are all closed in the
    order opened, and the scanner answers TRUE, because the 101st opener
    does not fit the stack. *)
Lemma C2_deep_nesting_rejected :
  balanced deep ∧
  contains_unbalanced_braces (repeat 0 100) (Some (cstring deep [])) = Some true.
Proof.
  split.
  - exists 101%nat. by apply nested_balanced.
  - vm_compute. reflexivity.
Qed.

(** C8: NULL gives FALSE.  On the empty string the loop body runs once on
    the terminator, [c] is advanced past it, and the loop test reads the
    byte behind the string: with nothing behind it the read is outside the
    object, with a zero byte behind it the answer is FALSE, and with the
    bytes of ["("] behind it the answer is TRUE. *)
Theorem C8_null_and_empty_input (stack0 : list Z) :
  contains_unbalanced_braces stack0 None = Some false ∧
  contains_unbalanced_braces stack0 (Some (cstring [] [])) = None ∧
  contains_unbalanced_braces stack0 (Some (cstring [] [0])) = Some false ∧
  contains_unbalanced_braces stack0 (Some (cstring [] (cstring (bytes "(") [])))
    = Some true.
Proof.
  repeat split. cbn. unfold cub_finish, cub_pop; simpl.
  change (Z.to_nat (sizeof_stack - 1)) with 99%nat.
  destruct (<[99%nat:=chr "("]> stack0 !! 99%nat) as [x|] eqn:Hx; simpl.
  - apply list_lookup_insert_Some in Hx as [(_ & <- & _)|[? _]]; done.
  - done.
Qed.

End BracesFacts.

Module XmlFacts.
Import Xml.

(** Non-membership in a list of events written out. *)
Ltac not_in_list :=
  repeat first
    [ assumption
    | apply not_elem_of_nil
    | apply not_elem_of_cons; split; [discriminate|]
    | apply not_elem_of_app; split ].

Lemma eval_matches E xp h d p ns slot0 :
  ready E h d p → matches E xp h d ns →
  ∃ o ev, my_xmlXPathEvalExpression E xp h (Some {| ctxt_doc := Some d |}) slot0
            = Some (Some o, ev) ∧
          nodesetval o = Some {| nodeTab := ns |} ∧ taking_first ∉ ev.
Proof.
  intros (_ & (dn & Hd & Hch) & Hp) (Hcur & o & rest & Hval & Hns).
  unfold my_xmlXPathEvalExpression, context_unusable; simpl.
  rewrite Hd, Hp, Hcur, Hval. rewrite bool_decide_eq_false_2 by done. simpl.
  eexists o, _. split; [reflexivity|]. split; [done|].
  unfold taking_first. case_decide; simpl; not_in_list.
Qed.

Lemma find_node_set_matches E xp h d p ns :
  ready E h d p → matches E xp h d ns →
  ∃ ev, (taking_first ∉ ev) ∧
        find_node_set E xp h (Some d) None
          = Some (if decide (ns = []) then None else Some {| nodeTab := ns |}, ev).
Proof.
  intros Hr Hm.
  destruct (eval_matches E xp h d p ns (pctxt2 E) Hr Hm) as (o & ev & Hev & Hns & Hnot).
  unfold find_node_set. destruct Hr as (-> & _ & _). simpl.
  rewrite Hev, Hns. unfold nodeNr; simpl.
  eexists. split; [|destruct ns; simpl; reflexivity].
  unfold taking_first in *. repeat case_decide; simpl; not_in_list.
Qed.

(** With no match [find_single_node] returns NULL; otherwise it returns the
    first node of the set, and prints the warning exactly when there is
    more than one. *)
Lemma find_single_node_matches E xp h d p ns :
  ready E h d p → matches E xp h d ns →
  ∃ ev, find_single_node E xp h (Some d) = Some (head ns, ev) ∧
        (taking_first ∈ ev ↔ (1 < length ns)%nat).
Proof.
  intros Hr Hm.
  destruct (find_node_set_matches E xp h d p ns Hr Hm) as (ev & Hnot & Hf).
  unfold find_single_node.
  destruct ns as [|n1 more].
  - rewrite Hf. exists ev. split; [done|]. split; [done | simpl; lia].
  - rewrite decide_False in Hf by done. rewrite Hf.
    unfold nodeNr. cbn [nodeTab head].
    eexists. split; [reflexivity|].
    case_decide as Hlt.
    + split; [intros _; lia | intros _].
      apply elem_of_app. right. by apply list_elem_of_singleton.
    + rewrite app_nil_r. split; [done | lia].
Qed.

(** Unlinking [n] leaves every other node attached where it was. *)
Lemma unlink_keeps_others h n m p :
  m ≠ n → attached h m p → attached (xmlUnlinkNode n h) m p.
Proof.
  intros Hne (nm & pn & Hm & Hpar & Hp & Hin).
  unfold xmlUnlinkNode. destruct (h !! n) as [nd|] eqn:Hn.
  2: { by exists nm, pn. }
  assert (∀ h1 : store,
    (∃ nm', h1 !! m = Some nm' ∧ parent nm' = Some p) →
    (p ≠ n → ∃ pn', h1 !! p = Some pn' ∧ m ∈ children pn') →
    attached (<[n := {| type := type nd; name := name nd;
                        properties := properties nd; parent := None;
                        children := children nd |}]> h1) m p) as Hins.
  { intros h1 (nm' & Hm' & Hpar') Hp'. unfold attached.
    rewrite lookup_insert_ne by done.
    destruct (decide (p = n)) as [->|Hpn].
    - rewrite lookup_insert_eq. eexists _, _. repeat split; try done.
      simpl. by simplify_eq.
    - rewrite lookup_insert_ne by done.
      destruct (Hp' Hpn) as (pn' & ? & ?). by exists nm', pn'. }
  apply Hins.
  - destruct (parent nd) as [q|]; [|by eauto].
    destruct (decide (q = m)) as [->|Hq].
    + rewrite lookup_alter_eq, Hm. simpl. by eexists.
    + rewrite lookup_alter_ne by done. by eauto.
  - intros Hpn. destruct (parent nd) as [q|]; [|by eauto].
    destruct (decide (q = p)) as [->|Hq].
    + rewrite lookup_alter_eq, Hp. simpl. eexists. split; [done|]. simpl.
      apply list_elem_of_filter. done.
    + rewrite lookup_alter_ne by done. by eauto.
Qed.

(** Unlinking [n] detaches it: it has no parent and its former parent does
    not list it. *)
Lemma unlink_detaches h n nd :
  h !! n = Some nd →
  (∃ nd', xmlUnlinkNode n h !! n = Some nd' ∧ parent nd' = None ∧
          children nd' = children nd) ∧
  ∀ p pn, parent nd = Some p → p ≠ n → xmlUnlinkNode n h !! p = Some pn →
          n ∉ children pn.
Proof.
  intros Hn. unfold xmlUnlinkNode. rewrite Hn. split.
  - rewrite lookup_insert_eq. by eexists.
  - intros p pn -> Hpn. rewrite lookup_insert_ne by done.
    rewrite lookup_alter_eq. destruct (h !! p); simpl; [|done].
    intros [= <-]. simpl. rewrite list_elem_of_filter. tauto.
Qed.

Lemma filter_absent (n : ptr) (cs : list ptr) :
  n ∉ cs → filter (λ c, c ≠ n) cs = cs.
Proof.
  induction cs as [|c cs IH]; [done|].
  intros [Hc Hcs]%not_elem_of_cons.
  rewrite filter_cons_True by done. f_equal. by apply IH.
Qed.

(** Putting [n] back at its old index undoes its removal from a child
    chain in which it occurs once. *)
Lemma filter_index_restore (n : ptr) (cs : list ptr) :
  NoDup cs → n ∈ cs →
  take (index_of n cs) (filter (λ c, c ≠ n) cs)
    ++ n :: drop (index_of n cs) (filter (λ c, c ≠ n) cs) = cs.
Proof.
  induction cs as [|c cs IH]; intros Hnd Hin.
  - by apply elem_of_nil in Hin.
  - apply NoDup_cons in Hnd as [Hc Hnd]. simpl.
    destruct (decide (c = n)) as [->|Hne].
    + rewrite filter_cons_False by (intros ?; done). simpl. f_equal.
      by apply filter_absent.
    + rewrite filter_cons_True by done. simpl. f_equal.
      apply IH; [done|]. apply elem_of_cons in Hin as [->|]; done.
Qed.

(** Unlinking [n] writes to [n] and to its parent only, and the parent
    loses that one child, the others keeping their order. *)
Lemma unlink_frame h n nd :
  h !! n = Some nd →
  (∀ m, m ≠ n → parent nd ≠ Some m → xmlUnlinkNode n h !! m = h !! m) ∧
  (∀ p pn, parent nd = Some p → p ≠ n → h !! p = Some pn →
     ∃ pn', xmlUnlinkNode n h !! p = Some pn' ∧
            type pn' = type pn ∧ name pn' = name pn ∧
            properties pn' = properties pn ∧ parent pn' = parent pn ∧
            children pn' = filter (λ c, c ≠ n) (children pn)).
Proof.
  intros Hn. unfold xmlUnlinkNode. rewrite Hn. split.
  - intros m Hm Hpar. rewrite lookup_insert_ne by done.
    destruct (parent nd) as [q|]; [|done].
    rewrite lookup_alter_ne; [done | congruence].
  - intros p pn -> Hp Hpn. rewrite lookup_insert_ne by done.
    rewrite lookup_alter_eq, Hpn. simpl. by eexists.
Qed.

(** Unlinking a child and linking it again at its old index gives the
    store back. *)
Lemma relink_unlink h n nd p pn :
  h !! n = Some nd → parent nd = Some p → h !! p = Some pn → n ≠ p →
  NoDup (children pn) → n ∈ children pn →
  relink n p (index_of n (children pn)) (xmlUnlinkNode n h) = h.
Proof.
  intros Hn Hpar Hp Hne Hnd Hin.
  unfold relink, xmlUnlinkNode. rewrite Hn, Hpar.
  apply map_eq. intros i.
  destruct (decide (i = n)) as [->|Hin'].
  - rewrite lookup_alter_eq, lookup_alter_ne by done.
    rewrite lookup_insert_eq. simpl. rewrite Hn, <- Hpar.
    by destruct nd.
  - rewrite lookup_alter_ne by done.
    destruct (decide (i = p)) as [->|Hip].
    + rewrite lookup_alter_eq, lookup_insert_ne by done.
      rewrite lookup_alter_eq, Hp. simpl.
      rewrite filter_index_restore by done. by destruct pn.
    + rewrite lookup_alter_ne, lookup_insert_ne, lookup_alter_ne by done.
      done.
Qed.

(** C4: whenever the extractor returns no node, the store is the one it
    was given, whatever the arguments; with no match it returns NULL, the
    document and [*can] as they were; and when the first match fails the
    validation it returns NULL with [*can] set to FALSE and the document
    as it was. *)
Theorem C4_no_node_no_change E xp attrs contents h d c p :
  ready E h d p →
  (∀ xpath doc can r,
     unlink_leaf_node_with_attr E xpath attrs contents h doc can = Some r →
     ret r = None → store_out r = h) ∧
  (matches E xp h d [] →
   ∃ ev, unlink_leaf_node_with_attr E (Some xp) attrs contents h (Some d) (Some c)
         = Some {| ret := None; can_out := Some c; store_out := h; events := ev |}) ∧
  (∀ n more, matches E xp h d (n :: more) →
     has_only_text_children_and_allowed_attrs h (Some n) attrs contents = Some false →
     ∃ ev, unlink_leaf_node_with_attr E (Some xp) attrs contents h (Some d) (Some c)
           = Some {| ret := None; can_out := Some false; store_out := h;
                     events := ev |}).
Proof.
  intros Hr. split; [|split].
  - intros xpath doc can r. unfold unlink_leaf_node_with_attr.
    destruct xpath as [xp'|], doc as [d'|], can as [c'|];
      try (intros [= <-]; done).
    destruct (find_single_node E xp' h (Some d')) as [[[n|] ev]|]; [| |done].
    + destruct (has_only_text_children_and_allowed_attrs h (Some n) attrs contents)
        as [[]|]; intros [= <-]; simpl; done.
    + by intros [= <-].
  - intros Hm.
    destruct (find_single_node_matches E xp h d p [] Hr Hm) as (ev & Hf & _).
    exists ev. unfold unlink_leaf_node_with_attr. by rewrite Hf.
  - intros n more Hm Hv.
    destruct (find_single_node_matches E xp h d p _ Hr Hm) as (ev & Hf & _).
    change (head (n :: more)) with (Some n) in Hf.
    exists ev. unfold unlink_leaf_node_with_attr. by rewrite Hf, Hv.
Qed.

(** C5: when the query selects more than one node, the warning is printed
    and the call goes on with the first node alone: the outcome is decided
    by the validation of that node; if it is valid it is returned and
    unlinked, and it has no parent afterwards; every other node is
    attached to the parent it had, no node but the first match and its
    parent is written, and the parent loses that one child. *)
Theorem C5_first_match_only E xp attrs contents h d c p n1 n2 more :
  ready E h d p → matches E xp h d (n1 :: n2 :: more) →
  ∃ ev, taking_first ∈ ev ∧
    unlink_leaf_node_with_attr E (Some xp) attrs contents h (Some d) (Some c)
      = match has_only_text_children_and_allowed_attrs h (Some n1) attrs contents with
        | None => None
        | Some false =>
            Some {| ret := None; can_out := Some false; store_out := h;
                    events := ev |}
        | Some true =>
            Some {| ret := Some n1; can_out := Some c;
                    store_out := xmlUnlinkNode n1 h; events := ev |}
        end ∧
    (∀ m q, m ≠ n1 → attached h m q → attached (xmlUnlinkNode n1 h) m q) ∧
    (∀ nd, h !! n1 = Some nd →
       (∃ nd', xmlUnlinkNode n1 h !! n1 = Some nd' ∧ parent nd' = None) ∧
       (∀ m, m ≠ n1 → parent nd ≠ Some m → xmlUnlinkNode n1 h !! m = h !! m) ∧
       (∀ q qn, parent nd = Some q → q ≠ n1 → h !! q = Some qn →
          ∃ qn', xmlUnlinkNode n1 h !! q = Some qn' ∧
                 children qn' = filter (λ c, c ≠ n1) (children qn))).
Proof.
  intros Hr Hm.
  destruct (find_single_node_matches E xp h d p _ Hr Hm) as (ev & Hf & Hw).
  exists ev. split; [apply Hw; simpl; lia|]. split; [|split].
  - change (head (n1 :: n2 :: more)) with (Some n1) in Hf.
    unfold unlink_leaf_node_with_attr. rewrite Hf.
    by destruct (has_only_text_children_and_allowed_attrs h (Some n1) attrs contents)
      as [[]|].
  - intros m q. apply unlink_keeps_others.
  - intros nd Hn. split; [|split].
    + destruct (unlink_detaches h n1 nd Hn) as [(nd' & ? & ? & _) _].
      by exists nd'.
    + apply (unlink_frame h n1 nd Hn).
    + intros q qn Hq Hne Hqn.
      destruct (proj2 (unlink_frame h n1 nd Hn) q qn Hq Hne Hqn)
        as (qn' & ? & _ & _ & _ & _ & ?).
      by exists qn'.
Qed.

(** C9: when the extractor returns the node [n], a child of [p], linking
    [n] again under [p] at the index it had gives back the store the
    extractor was called on. *)
Theorem C9_relink_restores_document E xp attrs contents h d c r n nd p pn :
  unlink_leaf_node_with_attr E (Some xp) attrs contents h (Some d) (Some c) = Some r →
  ret r = Some n →
  h !! n = Some nd → parent nd = Some p → h !! p = Some pn → n ≠ p →
  NoDup (children pn) → n ∈ children pn →
  relink n p (index_of n (children pn)) (store_out r) = h.
Proof.
  intros Hu Hret Hn Hpar Hp Hne Hnd Hin.
  assert (store_out r = xmlUnlinkNode n h) as ->.
  { unfold unlink_leaf_node_with_attr in Hu.
    destruct (find_single_node E xp h (Some d)) as [[[m|] ev]|]; [| |done].
    - destruct (has_only_text_children_and_allowed_attrs h (Some m) attrs contents)
        as [[]|]; simplify_eq; simpl in *; by simplify_eq.
    - simplify_eq; simpl in *; done. }
  by eapply relink_unlink.
Qed.

(** C10: when the query matches no node the extractor returns NULL and
    [*can] keeps the value it had; whatever the arguments, a call after
    which [*can] differs from its value at entry is one whose first match
    failed the validation, and it returns NULL too, with [*can] FALSE; so
    NULL is returned with and without a match. *)
Theorem C10_can_written_only_on_rejection E xp attrs contents h d c p :
  ready E h d p →
  (matches E xp h d [] →
   ∃ ev, unlink_leaf_node_with_attr E (Some xp) attrs contents h (Some d) (Some c)
         = Some {| ret := None; can_out := Some c; store_out := h; events := ev |}) ∧
  (∀ xpath doc can r,
     unlink_leaf_node_with_attr E xpath attrs contents h doc can = Some r →
     can_out r ≠ can →
     ret r = None ∧ can_out r = Some false ∧
     ∃ xp' n ev, xpath = Some xp' ∧
                 find_single_node E xp' h doc = Some (Some n, ev) ∧
                 has_only_text_children_and_allowed_attrs h (Some n) attrs contents
                   = Some false) ∧
  (∀ n more, matches E xp h d (n :: more) →
     has_only_text_children_and_allowed_attrs h (Some n) attrs contents = Some false →
     ∃ ev, unlink_leaf_node_with_attr E (Some xp) attrs contents h (Some d) (Some c)
           = Some {| ret := None; can_out := Some false; store_out := h;
                     events := ev |}).
Proof.
  intros Hr. split; [|split].
  - intros Hm.
    destruct (find_single_node_matches E xp h d p [] Hr Hm) as (ev & Hf & _).
    exists ev. unfold unlink_leaf_node_with_attr. by rewrite Hf.
  - intros xpath doc can r. unfold unlink_leaf_node_with_attr.
    destruct xpath as [xp'|], doc as [d'|], can as [c'|];
      try (intros [= <-]; done).
    destruct (find_single_node E xp' h (Some d')) as [[[n|] ev]|] eqn:Hf; [| |done].
    + destruct (has_only_text_children_and_allowed_attrs h (Some n) attrs contents)
        as [[]|] eqn:Hv; [| |done].
      * intros [= <-]. done.
      * intros [= <-] _. simpl. split; [done|]. split; [done|].
        by exists xp', n, ev.
    + intros [= <-]. done.
  - intros n more Hm Hv.
    destruct (find_single_node_matches E xp h d p _ Hr Hm) as (ev & Hf & _).
    change (head (n :: more)) with (Some n) in Hf.
    exists ev. unfold unlink_leaf_node_with_attr. by rewrite Hf, Hv.
Qed.

(** *** The leaf validator *)

Lemma allowed_loop_required nm v names cs : ∀ i,
  (length names + i ≤ length cs)%nat → Forall is_Some cs →
  ∃ b, allowed_loop nm (Some v) names (Some cs) i = Some b ∧
       (b = true ↔ ∃ j, names !! j = Some nm ∧ cs !! (i + j)%nat = Some (Some v)).
Proof.
  induction names as [|a names IH]; intros i Hlen Hcs.
  - exists false. split; [done|]. split; [done|]. by intros (j & ? & _).
  - simpl in Hlen.
    destruct (lookup_lt_is_Some_2 cs i) as [entry Hentry]; [lia|].
    pose proof (Forall_lookup_1 _ _ _ _ Hcs Hentry) as [e ->].
    destruct (IH (S i)) as (b & Hb & Hiff); [lia | done |].
    assert ((∃ j, names !! j = Some nm ∧ cs !! (S i + j)%nat = Some (Some v)) →
            ∃ j, (a :: names) !! j = Some nm ∧ cs !! (i + j)%nat = Some (Some v))
      as Hup.
    { intros (j & ? & ?). exists (S j). split; [done|].
      by replace (i + S j)%nat with (S i + j)%nat by lia. }
    simpl. rewrite Hentry.
    destruct (decide (nm = a)) as [->|Hne].
    + destruct (decide (v = e)) as [->|Hve].
      * exists true. split; [done|]. split; [|done]. intros _.
        exists 0%nat. split; [done|]. by rewrite Nat.add_0_r.
      * exists b. split; [done|]. rewrite Hiff. split; [exact Hup|].
        intros ([|j] & Hj & Hc).
        { rewrite Nat.add_0_r, Hentry in Hc. by simplify_eq. }
        exists j. split; [done|].
        by replace (S i + j)%nat with (i + S j)%nat by lia.
    + exists b. split; [done|]. rewrite Hiff. split; [exact Hup|].
      intros ([|j] & Hj & Hc).
      { simpl in Hj. by simplify_eq. }
      exists j. split; [done|].
      by replace (S i + j)%nat with (i + S j)%nat by lia.
Qed.

Lemma attrs_loop_required nattrs names cs :
  Forall (λ a, is_Some (attr_name a) ∧ is_Some (attr_value a)) nattrs →
  (length names ≤ length cs)%nat → Forall is_Some cs →
  ∃ b, attrs_loop nattrs names (Some cs) = Some b ∧
       (b = true ↔ Forall (listed names cs) nattrs).
Proof.
  intros Hwf Hlen Hcs. induction Hwf as [|a nattrs [[nm Hnm] [v Hv]] _ IH].
  - exists true. split; [done|]. split; [constructor | done].
  - destruct IH as (b & Hb & Hiff). simpl. rewrite Hnm, Hv.
    destruct (allowed_loop_required nm v names cs 0%nat) as (b1 & -> & Hiff1);
      [lia | done |].
    assert (listed names cs a ↔ b1 = true) as Hl.
    { rewrite Hiff1. unfold listed. rewrite Hnm, Hv. split.
      - intros (i & ? & ? & ? & ? & ? & ?). simplify_eq. by exists i.
      - intros (j & ? & ?). by exists j, nm, v. }
    destruct b1.
    + exists b. split; [done|]. rewrite Hiff, Forall_cons. tauto.
    + exists false. split; [done|]. rewrite Forall_cons, Hl. split; [done|].
      by intros [? _].
Qed.

Lemma children_loop_text h cs :
  Forall (λ c, ∃ n2, h !! c = Some n2 ∧
                     (type n2 = XML_TEXT_NODE → children n2 = [])) cs →
  ∃ b, children_loop h cs = Some b ∧
       (b = true ↔ Forall (λ c, ∃ n2, h !! c = Some n2 ∧ type n2 = XML_TEXT_NODE) cs).
Proof.
  induction 1 as [|c cs (n2 & Hc & Hleaf) _ (b & Hb & Hiff)].
  - exists true. split; [done|]. split; [constructor | done].
  - simpl. rewrite Hc. destruct (decide (type n2 = XML_TEXT_NODE)) as [Ht|Ht].
    + rewrite (Hleaf Ht). exists b. split; [done|].
      rewrite Hiff, Forall_cons. split; [|tauto]. intros ?. split; [|done].
      by exists n2.
    + exists false. split; [done|]. split; [done|].
      intros [(n2' & ? & ?) _]%Forall_cons. by simplify_eq.
Qed.

(** With a required value at every index of the whitelist, the validator
    decides what its documentation says: every attribute of the element is
    listed with its value, and every child is a text node. *)
Lemma validator_required_values h n nd attrs cs :
  h !! n = Some nd → type nd = XML_ELEMENT_NODE →
  Forall (λ a, is_Some (attr_name a) ∧ is_Some (attr_value a)) (properties nd) →
  Forall (λ c, ∃ n2, h !! c = Some n2 ∧
                     (type n2 = XML_TEXT_NODE → children n2 = [])) (children nd) →
  (∀ names, attrs = Some names → (length names ≤ length cs)%nat) →
  Forall is_Some cs →
  ∃ b, has_only_text_children_and_allowed_attrs h (Some n) attrs (Some cs) = Some b ∧
       (b = true ↔
          (properties nd ≠ [] →
             ∃ names, attrs = Some names ∧
                      Forall (listed names cs) (properties nd)) ∧
          Forall (λ c, ∃ n2, h !! c = Some n2 ∧ type n2 = XML_TEXT_NODE)
                 (children nd)).
Proof.
  intros Hn Hty Hattrs Hch Hlen Hcs.
  destruct (children_loop_text h (children nd) Hch) as (bc & Hbc & Hiffc).
  unfold has_only_text_children_and_allowed_attrs. rewrite Hn.
  rewrite decide_True by done.
  destruct (properties nd) as [|a nattrs] eqn:Hprops.
  - exists bc. split; [done|]. rewrite Hiffc. tauto.
  - destruct attrs as [names|].
    + destruct (attrs_loop_required (a :: nattrs) names cs Hattrs) as (ba & -> & Hiffa);
        [by apply Hlen | done |].
      destruct ba.
      * exists bc. split; [done|]. rewrite Hiffc. split; [|tauto].
        intros ?. split; [|done]. intros _. exists names. split; [done|].
        by apply Hiffa.
      * exists false. split; [done|]. split; [done|].
        intros [Hall _]. destruct Hall as (names' & [= <-] & Hall); [done|].
        by apply Hiffa in Hall.
    + exists false. split; [done|]. split; [done|].
      intros [Hall _]. by destruct Hall as (names' & ? & _).
Qed.

(** A NULL entry at the index of a matching name: [strcmp] is called on
    NULL, and the validator has no result. *)
Lemma validator_null_entry h n nd nm v rest names cs :
  h !! n = Some nd → type nd = XML_ELEMENT_NODE →
  properties nd = {| attr_name := Some nm; attr_value := v |} :: rest →
  has_only_text_children_and_allowed_attrs h (Some n) (Some (nm :: names))
    (Some (None :: cs)) = None.
Proof.
  intros Hn Hty Hprops. unfold has_only_text_children_and_allowed_attrs.
  rewrite Hn, Hprops. rewrite decide_True by done. simpl.
  rewrite decide_True by done. by destruct v.
Qed.

(** *** The session slot along [my_xmlXPathEvalExpression] *)

Lemma eval_trace E str h ctxt slot0 p :
  context_unusable h ctxt = Some false →
  xmlXPathNewParserContext E = Some p →
  ∃ res mid, my_xmlXPathEvalExpression E str h ctxt slot0
               = Some (res, session p mid) ∧ report mid.
Proof.
  intros Hctx Hp. unfold my_xmlXPathEvalExpression. rewrite Hctx, Hp.
  destruct ctxt as [[[d|]]|]; simpl in Hctx; try discriminate. simpl.
  destruct (decide (cur (xmlXPathEvalExpr E str h d) ≠ 0)).
  - rewrite decide_False by (intros [_ ?]; done).
    eexists _, _. split; [reflexivity | constructor].
  - destruct (valuePop (valueTab (xmlXPathEvalExpr E str h d))) as [r rest].
    case_decide; eexists _, _; (split; [reflexivity | constructor]).
Qed.

Tactic Notation "by_event_index" ident(n) :=
  do 10 (destruct n as [|n]; [simpl; try done; try (intros; discriminate)|]).

Lemma session_slot p mid :
  report mid →
  session p mid !! 1%nat = Some (SlotWrite (Some p)) ∧
  (∀ v, slot_after v (session p mid) = None) ∧
  locked_after false (session p mid) = false ∧
  (∀ n v, session p mid !! n = Some (SlotWrite v) →
          locked_after false (take n (session p mid)) = true) ∧
  (∀ n, slot_after None (take n (session p mid))
        = if decide (2 ≤ n ≤ length (session p mid) - 2)%nat
          then Some p else None) ∧
  (∀ n, session p mid !! n = Some (EvalExpr p) →
        slot_after None (take n (session p mid)) = Some p) ∧
  (∀ n, session p mid !! n = Some (FreeParserContext p) →
        locked_after false (take n (session p mid)) = true).
Proof.
  intros Hrep. split; [reflexivity|].
  destruct Hrep; (split; [reflexivity|]); (split; [reflexivity|]);
    (split; [|split; [|split]]); intros n; try intros v; by_event_index n;
    try (rewrite take_nil); simpl; try done;
    try (case_decide; [lia | done]).
Qed.

(** Every call that returns leaves a slot that was NULL at entry NULL,
    whether it published a context or returned at the context check. *)
Lemma slot_null_between_calls E str h ctxt slot0 res t :
  my_xmlXPathEvalExpression E str h ctxt slot0 = Some (res, t) →
  slot_after None t = None.
Proof.
  unfold my_xmlXPathEvalExpression.
  destruct (context_unusable h ctxt) as [[]|] eqn:Hctx; [| |done].
  - destruct slot0; intros [= <- <-]; done.
  - destruct (xmlXPathNewParserContext E) as [p|] eqn:Hp.
    2: { by destruct (ctxt ≫= ctxt_doc). }
    destruct (eval_trace E str h ctxt slot0 p Hctx Hp) as (res' & mid & Heq & Hrep).
    unfold my_xmlXPathEvalExpression in Heq. rewrite Hctx, Hp in Heq.
    rewrite Heq. intros [= <- <-]. by apply session_slot.
Qed.

(** C3: a call that gets past the context check and gets its parser
    context returns; the slot is written with the context and later with
    NULL, each time with the mutex held, and the mutex is free at the
    end; the slot is NULL when the call returns whatever it held before;
    and if it held NULL at entry, it holds the context exactly from the
    publishing write to the clearing write, which includes the
    evaluation, also when the evaluation reports an error.  The context
    is freed just before the clearing write, with the mutex held. *)
Theorem C3_slot_cleared_after_publish E str h ctxt slot0 p :
  context_unusable h ctxt = Some false →
  xmlXPathNewParserContext E = Some p →
  ∃ res t,
    my_xmlXPathEvalExpression E str h ctxt slot0 = Some (res, t) ∧
    t !! 1%nat = Some (SlotWrite (Some p)) ∧
    (∀ v, slot_after v t = None) ∧
    locked_after false t = false ∧
    (∀ n v, t !! n = Some (SlotWrite v) → locked_after false (take n t) = true) ∧
    (∀ n, slot_after None (take n t)
          = if decide (2 ≤ n ≤ length t - 2)%nat then Some p else None) ∧
    (∀ n, t !! n = Some (EvalExpr p) → slot_after None (take n t) = Some p) ∧
    (∀ n, t !! n = Some (FreeParserContext p) →
          locked_after false (take n t) = true).
Proof.
  intros Hctx Hp.
  destruct (eval_trace E str h ctxt slot0 p Hctx Hp) as (res & mid & Heq & Hrep).
  exists res, (session p mid). split; [exact Heq|]. by apply session_slot.
Qed.

(** *** The outcomes of [find_node_set] *)

(** C6 (as amended): when the evaluation stops before the end of the
    expression, when it leaves no object, when the object has no node set
    (a boolean result is such an object) and when the node set is empty,
    [find_node_set] returns NULL, the same value each time; the cases
    differ in what is printed: the XPath error and "No XPathObject!", "No
    XPathObject!" alone, "No nodeset!", and nothing.  Otherwise it returns
    the node set. *)
Theorem C6_failures_all_return_null E xp h d p pctxt :
  ready E h d p →
  let pc := xmlXPathEvalExpr E xp h d in
  (cur pc ≠ 0 →
   ∃ ev, find_node_set E xp h (Some d) pctxt = Some (None, ev) ∧
         XPathError "XPATH_EXPR_ERROR" ∈ ev ∧
         last ev = Some (Printed "No XPathObject!")) ∧
  (cur pc = 0 → valueTab pc = [] →
   ∃ ev, find_node_set E xp h (Some d) pctxt = Some (None, ev) ∧
         (XPathError "XPATH_EXPR_ERROR" ∉ ev) ∧
         last ev = Some (Printed "No XPathObject!")) ∧
  (∀ o rest, cur pc = 0 → valueTab pc = o :: rest → nodesetval o = None →
   ∃ ev, find_node_set E xp h (Some d) pctxt = Some (None, ev) ∧
         last ev = Some (Printed "No nodeset!")) ∧
  (∀ o rest ns, cur pc = 0 → valueTab pc = o :: rest → nodesetval o = Some ns →
   ∃ ev, find_node_set E xp h (Some d) pctxt
         = Some (if decide (nodeTab ns = []) then None else Some ns, ev) ∧
         (Printed "No XPathObject!" ∉ ev) ∧ (Printed "No nodeset!" ∉ ev)).
Proof.
  intros (Hok & (dn & Hd & Hch) & Hp) pc.
  assert (∀ slot0, my_xmlXPathEvalExpression E xp h (Some {| ctxt_doc := Some d |}) slot0
          = let '(res, rest, err) :=
              if decide (cur pc ≠ 0)
              then (None, valueTab pc, [XPathError "XPATH_EXPR_ERROR"])
              else let '(r, rest) := valuePop (valueTab pc) in (r, rest, []) in
            Some (res,
                  [MutexLock; SlotWrite (Some p); MutexUnlock; EvalExpr p]
                  ++ err
                  ++ (if decide (drain rest ≠ 0 ∧ res ≠ None)
                      then [Printed "xmlXPathEvalExpression: %d object left on the stack"]
                      else [])
                  ++ [MutexLock; FreeParserContext p; SlotWrite None; MutexUnlock]))
    as Heval.
  { intros slot0. unfold my_xmlXPathEvalExpression, context_unusable. simpl.
    rewrite Hd, Hp. rewrite bool_decide_eq_false_2 by done. simpl. fold pc.
    destruct (decide (cur pc ≠ 0)); [done|].
    by destruct (valuePop (valueTab pc)). }
  unfold find_node_set. rewrite Hok. simpl. rewrite Heval. clear Heval.
  split; [|split; [|split]].
  - intros Hcur. destruct (decide (cur pc ≠ 0)); [|done].
    destruct (decide (_ ∧ @None xmlXPathObject ≠ None)) as [[_ ?]|_]; [done|].
    eexists. split; [reflexivity|]. split.
    + apply elem_of_app; right. apply elem_of_app; right. simpl.
      do 4 (apply elem_of_cons; right). apply elem_of_cons. by left.
    + repeat case_decide; reflexivity.
  - intros Hcur Hval. destruct (decide (cur pc ≠ 0)); [done|].
    rewrite Hval. simpl.
    eexists. split; [reflexivity|]. split.
    + repeat case_decide; simpl; not_in_list.
    + repeat case_decide; reflexivity.
  - intros o rest Hcur Hval Hns. destruct (decide (cur pc ≠ 0)); [done|].
    rewrite Hval. simpl. rewrite Hns.
    eexists. split; [reflexivity|]. repeat case_decide; reflexivity.
  - intros o rest ns Hcur Hval Hns. destruct (decide (cur pc ≠ 0)); [done|].
    rewrite Hval. simpl. rewrite Hns. unfold nodeNr.
    destruct ns as [[|n1 more]]; simpl;
      (eexists; split; [reflexivity|]);
      split; repeat case_decide; simpl; not_in_list.
Qed.

End XmlFacts.

Module JoinFacts.
Import Xml XmlFacts.

Lemma strlcat_take (full src : list Z) (len : Z) :
  0 < len →
  g_strlcat (take (Z.to_nat (len - 1)) full) src len
    = take (Z.to_nat (len - 1)) (full ++ src).
Proof.
  intros Hlen. unfold g_strlcat. rewrite length_take.
  case_decide; [lia|].
  destruct (decide (length full ≤ Z.to_nat (len - 1))%nat) as [Hle|Hgt].
  - rewrite take_app, (take_ge full) by done. f_equal. f_equal. lia.
  - rewrite take_app_le by lia.
    replace (Z.to_nat (len - _ - 1)) with 0%nat by lia. by rewrite app_nil_r.
Qed.

(** When the entry behind the last node can be read, the buffer after the
    loop holds the first [len - 1] bytes of the joined text. *)
Lemma orth_loop_take E h len last nodes : ∀ full,
  0 < len → is_Some last →
  orth_loop E h last nodes (take (Z.to_nat (len - 1)) full) len
    = Some (take (Z.to_nat (len - 1))
              (join_from full (xmlNodeGetContent E h <$> nodes))).
Proof.
  induction nodes as [|n2 nodes IH]; intros full Hlen Hlast.
  { by destruct Hlast as [v ->]. }
  cbn [orth_loop fmap list_fmap join_from].
  set (k := Z.to_nat (len - 1)).
  set (full1 := match full with [] => full | _ => full ++ bytes ", " end).
  assert ((if decide (Z.of_nat (length (take k full)) ≠ 0)
           then g_strlcat (take k full) (bytes ", ") len else take k full)
          = take k full1) as ->.
  { subst full1. case_decide as Hl.
    - destruct full as [|b full]; [by rewrite take_nil in Hl|].
      by apply strlcat_take.
    - assert (length (take k full) = 0%nat) as Hl' by lia.
      destruct full as [|b full]; [done|]. rewrite length_take in Hl'.
      assert (k = 0%nat) as -> by (simpl in Hl'; lia). done. }
  assert (match xmlNodeGetContent E h n2 with
          | Some c => g_strlcat (take k full1) c len
          | None => g_strlcat (take k full1) (bytes "(null)") len
          end = take k (full1 ++ piece (xmlNodeGetContent E h n2))) as ->.
  { destruct (xmlNodeGetContent E h n2); by apply strlcat_take. }
  by apply IH.
Qed.

(** When it cannot, the loop has no result, whatever the nodes are. *)
Lemma orth_loop_full E h len nodes : ∀ e, orth_loop E h None nodes e len = None.
Proof. induction nodes as [|n2 nodes IH]; intros e; [done|]. apply IH. Qed.

Lemma Chars_concat e chs : Chars e chs → e = concat chs.
Proof.
  induction 1 as [|b t rest chs _ _ _ IH]; [done|]. simpl. by rewrite <- IH.
Qed.

Lemma Chars_take e chs n : Chars e chs → Chars (concat (take n chs)) (take n chs).
Proof.
  intros H. revert n. induction H as [|b t rest chs Hb Hlen _ IH]; intros n.
  - rewrite take_nil. constructor.
  - destruct n as [|n]; [constructor|]. cbn [take concat].
    by constructor.
Qed.

Lemma utf8_offset_chars rest chs :
  Chars rest chs → ∀ pre n,
  utf8_offset n (pre ++ rest) (length pre)
    = Some (length pre + length (concat (take n chs)))%nat.
Proof.
  induction 1 as [|b t rest chs Hb Hlen _ IH]; intros pre n.
  - rewrite take_nil, app_nil_r. simpl. rewrite Nat.add_0_r.
    destruct n as [|n]; [done|]. simpl.
    rewrite lookup_ge_None_2 by lia. by rewrite decide_True.
  - destruct n as [|n]; [simpl; f_equal; lia|].
    cbn [utf8_offset]. rewrite lookup_app_r by lia.
    rewrite Nat.sub_diag. cbn [lookup list_lookup app].
    rewrite decide_False by done.
    rewrite <- Hlen, <- length_app.
    change (pre ++ b :: t ++ rest) with (pre ++ (b :: t) ++ rest).
    rewrite (app_assoc pre (b :: t) rest), IH.
    cbn [take concat]. rewrite !length_app. f_equal. lia.
Qed.

(** The walk over [n] characters of a text that starts with the whole
    characters [chs]: what follows them is not looked at when the walk
    ends inside them. *)
Lemma utf8_offset_whole whole chs :
  Chars whole chs → ∀ pre tail n,
  (n ≤ length chs)%nat ∨ tail = [] →
  utf8_offset n (pre ++ whole ++ tail) (length pre)
    = Some (length pre + length (concat (take n chs)))%nat.
Proof.
  induction 1 as [|b t rest chs Hb Hlen _ IH]; intros pre tail n Hn.
  - rewrite take_nil. cbn [app concat length]. rewrite Nat.add_0_r.
    destruct n as [|n]; [done|]. destruct Hn as [Hn| ->]; [simpl in Hn; lia|].
    rewrite app_nil_r. cbn [utf8_offset].
    rewrite lookup_ge_None_2 by lia. by rewrite decide_True.
  - destruct n as [|n]; [simpl; f_equal; lia|].
    cbn [utf8_offset]. rewrite lookup_app_r by lia.
    rewrite Nat.sub_diag. cbn [lookup list_lookup app].
    rewrite decide_False by done.
    rewrite <- Hlen, <- length_app.
    replace (pre ++ b :: (t ++ rest) ++ tail) with ((pre ++ b :: t) ++ rest ++ tail)
      by (by rewrite <- !app_assoc).
    rewrite IH.
    + cbn [take concat]. rewrite !length_app. f_equal. lia.
    + destruct Hn as [Hn|Hn]; [left; simpl in Hn; lia | by right].
Qed.

(** The walk that comes to a character cut short behind the whole
    characters [chs] steps over the end of the text: it ends there when
    that was its last step, and has no result otherwise. *)
Lemma utf8_offset_cut whole chs b t :
  Chars whole chs → b ≠ 0 → (length (b :: t) < g_utf8_skip b)%nat →
  ∀ pre n,
  utf8_offset (length chs + 1 + n) (pre ++ whole ++ b :: t) (length pre)
    = if decide (n = 0%nat)
      then Some (length pre + length whole + g_utf8_skip b)%nat
      else None.
Proof.
  intros Hch Hb Hshort.
  induction Hch as [|b' t' rest chs Hb' Hlen _ IH]; intros pre n.
  - cbn [length app Nat.add utf8_offset].
    rewrite lookup_app_r by lia. rewrite Nat.sub_diag. cbn [lookup list_lookup].
    rewrite decide_False by done. rewrite Nat.add_0_r.
    destruct n as [|n]; [done|]. cbn [utf8_offset].
    rewrite lookup_ge_None_2 by (rewrite length_app; lia).
    rewrite decide_False by (rewrite length_app; lia). done.
  - cbn [length Nat.add utf8_offset]. rewrite lookup_app_r by lia.
    rewrite Nat.sub_diag. cbn [lookup list_lookup app].
    rewrite decide_False by done.
    rewrite <- Hlen, <- length_app.
    replace (pre ++ b' :: (t' ++ rest) ++ b :: t)
      with ((pre ++ b' :: t') ++ rest ++ b :: t) by (by rewrite <- !app_assoc).
    rewrite IH.
    case_decide; [|done]. f_equal. cbn [length]. rewrite !length_app.
    cbn [length]. lia.
Qed.

(** [g_utf8_strncpy] stores the first [n] characters of a text when its
    walk ends inside the whole characters [chs] the text starts with, or
    the text has nothing else. *)
Lemma g_utf8_strncpy_whole chs tail len n :
  Chars (concat chs) chs → Z.of_nat (length (concat chs ++ tail)) < len →
  (Z.to_nat n ≤ length chs)%nat ∨ tail = [] →
  g_utf8_strncpy len (concat chs ++ tail) n = Some (concat (take (Z.to_nat n) chs)).
Proof.
  intros Hch Hfit Hn. unfold g_utf8_strncpy.
  pose proof (utf8_offset_whole _ chs Hch [] tail (Z.to_nat n) Hn) as Hoff.
  cbn [app length Nat.add] in Hoff. rewrite Hoff.
  assert (concat chs = concat (take (Z.to_nat n) chs) ++ concat (drop (Z.to_nat n) chs))
    as Hsplit by (by rewrite <- concat_app, take_drop).
  rewrite decide_True.
  - f_equal. rewrite Hsplit at 1. by rewrite <- app_assoc, take_app_length.
  - rewrite length_app, Hsplit, length_app in Hfit. lia.
Qed.

(** When the walk comes to a character cut short, the copy stores the
    whole text, cut character included, if the walk ends with that step
    inside the buffer; if not, the call has no result. *)
Lemma g_utf8_strncpy_cut chs b t len n :
  Chars (concat chs) chs → b ≠ 0 → (length (b :: t) < g_utf8_skip b)%nat →
  (length chs < Z.to_nat n)%nat →
  g_utf8_strncpy len (concat chs ++ b :: t) n
    = if decide (Z.to_nat n = S (length chs) ∧
                 Z.of_nat (length (concat chs) + g_utf8_skip b) < len)
      then Some (concat chs ++ b :: t) else None.
Proof.
  intros Hch Hb Hshort Hn. unfold g_utf8_strncpy.
  pose proof (utf8_offset_cut _ chs b t Hch Hb Hshort []
                (Z.to_nat n - length chs - 1)) as Hoff.
  replace (length chs + 1 + (Z.to_nat n - length chs - 1))%nat
    with (Z.to_nat n) in Hoff by lia.
  cbn [app length Nat.add] in Hoff. rewrite Hoff.
  destruct (decide (Z.to_nat n - length chs - 1 = 0)%nat) as [Hlast|Hmore].
  - destruct (decide (Z.of_nat (length (concat chs) + g_utf8_skip b) < len))
      as [Hfit|Hout].
    + rewrite decide_True by (split; [lia | done]).
      rewrite take_ge; [done|]. rewrite length_app. cbn [length] in *. lia.
    + by rewrite decide_False by (by intros [_ ?]).
  - by rewrite decide_False by (intros [? _]; lia).
Qed.

(** Every text without NUL is some whole characters and, behind them,
    nothing or one character cut short. *)
Lemma chars_decompose (e : list Z) :
  nul_free e →
  ∃ chs tail, e = concat chs ++ tail ∧ Chars (concat chs) chs ∧
    (tail = [] ∨ ∃ b t, tail = b :: t ∧ b ≠ 0 ∧
                        (length (b :: t) < g_utf8_skip b)%nat).
Proof.
  remember (length e) as m eqn:Hm. revert e Hm.
  induction m as [m IH] using lt_wf_ind. intros e Hm Hnul.
  destruct e as [|b r].
  { exists [], []. split; [done|]. split; [constructor | by left]. }
  apply Forall_cons in Hnul as [Hb Hr].
  destruct (decide (length (b :: r) < g_utf8_skip b)%nat) as [Hshort|Hlong].
  { exists [], (b :: r). split; [done|]. split; [constructor|].
    right. by exists b, r. }
  assert (0 < g_utf8_skip b)%nat as Hpos
    by (unfold g_utf8_skip; repeat case_decide; lia).
  destruct (g_utf8_skip b) as [|k] eqn:Hk; [lia|].
  cbn [length] in Hlong.
  destruct (IH (length (drop k r))) with (e := drop k r)
    as (chs & tail & Hd & Hch & Htail).
  { subst m. rewrite length_drop. cbn [length]. lia. }
  { done. }
  { by apply Forall_drop. }
  exists ((b :: take k r) :: chs), tail. split; [|split; [|done]].
  - cbn [concat]. rewrite <- app_assoc, <- Hd. cbn [app]. by rewrite take_drop.
  - cbn [concat]. apply Chars_cons; [done| |done].
    cbn [length]. rewrite length_take, Hk. lia.
Qed.

(** With a full table the call has no result, whatever the contents. *)
Lemma full_table_no_result E h n len s0 h' doc p nodes :
  0 < len →
  new_doc_with_copy E h n = Some (h', doc) →
  ready E h' doc p → matches E "/entry/form/orth" h' doc nodes → nodes ≠ [] →
  nodeTab_end E {| nodeTab := nodes |} = None →
  entry_orths_to_string E h (Some n) len (Some s0) = None.
Proof.
  intros Hlen Hcopy Hr Hm Hne Hfull.
  destruct (find_node_set_matches E _ h' doc p nodes Hr Hm) as (ev & _ & Hf).
  unfold entry_orths_to_string, copy_node_to_doc.
  rewrite decide_True by done. rewrite Hcopy, Hf.
  rewrite (decide_False (P := nodes = [])) by done.
  unfold nodeNr. cbn [nodeTab].
  rewrite decide_False by (destruct nodes; [done | simpl; lia]).
  by rewrite Hfull, orth_loop_full.
Qed.

(** C7 (as amended): with no matching node the call returns FALSE and
    stores the message "No nodes (form/orth)!" (its first [len - 1]
    bytes).  With matching nodes, the joined text is made in result
    order of each node's content, or of "(null)" when
    [xmlNodeGetContent] returns NULL, with ", " before each piece that
    follows some text, and the buffer holds its first [len - 1] bytes:
    some whole characters [chs] and what follows them, [tail].  When the
    entry behind the last node of the table can be read, and the copy of
    [len / 2] characters ends inside [chs] or there is no [tail], the
    call returns TRUE and stores the first [len / 2] characters: a prefix
    of the joined text of at most [len - 1] bytes that ends on a
    character boundary.  When the copy comes to a [tail] that is a
    character cut short, it steps over the end of the text: the call
    stores the text as it is if that was its last step and the step ends
    inside the buffer, and has no result otherwise.  With a full table
    it has no result. *)
Theorem C7_join_of_contents E h n len s0 h' doc p nodes chs tail :
  0 < len →
  new_doc_with_copy E h n = Some (h', doc) →
  ready E h' doc p → matches E "/entry/form/orth" h' doc nodes →
  (nodes = [] →
   ∃ ev, entry_orths_to_string E h (Some n) len (Some s0)
         = Some ((false,
                  Some (take (Z.to_nat (len - 1)) (bytes "No nodes (form/orth)!"))),
                 ev)) ∧
  (nodes ≠ [] →
   is_Some (nodeTab_end E {| nodeTab := nodes |}) →
   take (Z.to_nat (len - 1)) (join_from [] (xmlNodeGetContent E h' <$> nodes))
     = concat chs ++ tail →
   Chars (concat chs) chs →
   (Z.to_nat (len / 2) ≤ length chs)%nat ∨ tail = [] →
   ∃ ev out,
     entry_orths_to_string E h (Some n) len (Some s0) = Some ((true, Some out), ev) ∧
     out = concat (take (Z.to_nat (len / 2)) chs) ∧
     out `prefix_of` join_from [] (xmlNodeGetContent E h' <$> nodes) ∧
     Z.of_nat (length out) ≤ len - 1 ∧
     Chars out (take (Z.to_nat (len / 2)) chs)) ∧
  (nodes ≠ [] →
   is_Some (nodeTab_end E {| nodeTab := nodes |}) →
   take (Z.to_nat (len - 1)) (join_from [] (xmlNodeGetContent E h' <$> nodes))
     = concat chs ++ tail →
   Chars (concat chs) chs →
   (length chs < Z.to_nat (len / 2))%nat →
   ∀ b t, tail = b :: t → b ≠ 0 → (length (b :: t) < g_utf8_skip b)%nat →
   fst <$> entry_orths_to_string E h (Some n) len (Some s0)
     = if decide (Z.to_nat (len / 2) = S (length chs) ∧
                  Z.of_nat (length (concat chs) + g_utf8_skip b) < len)
       then Some (true, Some (concat chs ++ tail)) else None) ∧
  (nodes ≠ [] →
   nodeTab_end E {| nodeTab := nodes |} = None →
   entry_orths_to_string E h (Some n) len (Some s0) = None).
Proof.
  intros Hlen Hcopy Hr Hm.
  split; [|split; [|split]]; [| | |by eauto using full_table_no_result].
  all: destruct (find_node_set_matches E _ h' doc p nodes Hr Hm) as (ev & _ & Hf).
  all: unfold entry_orths_to_string, copy_node_to_doc.
  all: rewrite decide_True by done; rewrite Hcopy, Hf.
  - intros ->. exists ev. by rewrite decide_True.
  - intros Hne Hlast He Hch Hn. rewrite (decide_False (P := nodes = [])) by done.
    unfold nodeNr. cbn [nodeTab].
    rewrite decide_False by (destruct nodes; [done | simpl; lia]).
    set (J := join_from [] (xmlNodeGetContent E h' <$> nodes)) in *.
    assert (orth_loop E h' (nodeTab_end E {| nodeTab := nodes |}) nodes [] len
            = Some (take (Z.to_nat (len - 1)) J)) as ->.
    { subst J. rewrite <- (orth_loop_take E h' len _ nodes [] Hlen Hlast).
      by rewrite take_nil. }
    assert (Z.of_nat (length (take (Z.to_nat (len - 1)) J)) < len) as Hfit
      by (rewrite length_take; lia).
    rewrite Z.quot_div_nonneg by lia. rewrite He in Hfit |- *.
    rewrite (g_utf8_strncpy_whole chs tail len (len / 2) Hch Hfit Hn).
    eexists _, _. split; [reflexivity|]. split; [reflexivity|].
    assert (concat chs
            = concat (take (Z.to_nat (len / 2)) chs)
              ++ concat (drop (Z.to_nat (len / 2)) chs)) as Hsplit
      by (by rewrite <- concat_app, take_drop).
    split; [|split].
    + exists (concat (drop (Z.to_nat (len / 2)) chs) ++ tail
              ++ drop (Z.to_nat (len - 1)) J).
      rewrite !app_assoc, <- Hsplit, <- He. by rewrite take_drop.
    + rewrite length_app, Hsplit, length_app in Hfit. lia.
    + by eapply Chars_take.
  - intros Hne Hlast He Hch Hn b t -> Hb Hshort.
    rewrite (decide_False (P := nodes = [])) by done.
    unfold nodeNr. cbn [nodeTab].
    rewrite decide_False by (destruct nodes; [done | simpl; lia]).
    set (J := join_from [] (xmlNodeGetContent E h' <$> nodes)) in *.
    assert (orth_loop E h' (nodeTab_end E {| nodeTab := nodes |}) nodes [] len
            = Some (take (Z.to_nat (len - 1)) J)) as ->.
    { subst J. rewrite <- (orth_loop_take E h' len _ nodes [] Hlen Hlast).
      by rewrite take_nil. }
    rewrite Z.quot_div_nonneg by lia. rewrite He.
    rewrite (g_utf8_strncpy_cut chs b t len (len / 2) Hch Hb Hshort Hn).
    by destruct (decide (Z.to_nat (len / 2) = S (length chs) ∧ _)).
Qed.

End JoinFacts.

Module XmlRuns.
Import Xml XmlFacts JoinFacts Sample.

Lemma entry_doc_ready pc : ready (env_of pc) entry_doc 1%positive 100%positive.
Proof.
  split; [reflexivity|]. split; [|reflexivity].
  eexists. split; [reflexivity | discriminate].
Defined.

Lemma selecting_matches ns xp h d : matches (selecting ns) xp h d ns.
Proof.
  split; [reflexivity|]. eexists _, _. split; reflexivity.
Defined.

Lemma C4_no_node_no_change_witness :
  (∃ ev, unlink_leaf_node_with_attr (selecting []) (Some "//gramGrp") None None
           entry_doc (Some 1%positive) (Some true)
         = Some {| ret := None; can_out := Some true; store_out := entry_doc;
                   events := ev |}) ∧
  (∃ ev, unlink_leaf_node_with_attr (selecting [3%positive]) (Some "//form") None None
           entry_doc (Some 1%positive) (Some true)
         = Some {| ret := None; can_out := Some false; store_out := entry_doc;
                   events := ev |}).
Proof.
  split.
  - refine (proj1 (proj2 (C4_no_node_no_change (selecting []) "//gramGrp" None None
                            entry_doc 1%positive true 100%positive _)) _).
    + apply entry_doc_ready.
    + apply selecting_matches.
  - refine (proj2 (proj2 (C4_no_node_no_change (selecting [3%positive]) "//form"
                            None None entry_doc 1%positive true 100%positive _))
                  3%positive [] _ _).
    + apply entry_doc_ready.
    + apply selecting_matches.
    + reflexivity.
Defined.

Lemma C5_first_match_only_witness :
  ∃ ev, taking_first ∈ ev ∧
    unlink_leaf_node_with_attr (selecting [4%positive; 6%positive]) (Some "//orth")
        (Some ["type"]) (Some [Some "n"]) entry_doc (Some 1%positive) (Some true)
      = Some {| ret := Some 4%positive; can_out := Some true;
                store_out := xmlUnlinkNode 4%positive entry_doc; events := ev |} ∧
    attached (xmlUnlinkNode 4%positive entry_doc) 6%positive 3%positive.
Proof.
  destruct (C5_first_match_only (selecting [4%positive; 6%positive]) "//orth"
              (Some ["type"]) (Some [Some "n"]) entry_doc 1%positive true
              100%positive 4%positive 6%positive []
              (entry_doc_ready _) (selecting_matches _ _ _ _))
    as (ev & Hw & Hu & Hkeep & _).
  exists ev. split; [exact Hw|]. split; [exact Hu|].
  apply Hkeep; [discriminate|].
  eexists _, _. split; [reflexivity|]. split; [reflexivity|].
  split; [reflexivity|]. simpl. apply elem_of_cons. right.
  apply elem_of_cons. by left.
Defined.

Lemma C9_relink_restores_document_witness :
  relink 4%positive 3%positive 0 (xmlUnlinkNode 4%positive entry_doc) = entry_doc.
Proof.
  refine (C9_relink_restores_document (selecting [4%positive]) "//orth"
            (Some ["type"]) (Some [Some "n"]) entry_doc 1%positive true
            {| ret := Some 4%positive; can_out := Some true;
               store_out := xmlUnlinkNode 4%positive entry_doc;
               events := [MutexLock; SlotWrite (Some 100%positive); MutexUnlock;
                          EvalExpr 100%positive; MutexLock;
                          FreeParserContext 100%positive; SlotWrite None;
                          MutexUnlock] |}
            4%positive
            (node XML_ELEMENT_NODE "orth" [attr "type" "n"] (Some 3%positive)
                  [5%positive])
            3%positive
            (node XML_ELEMENT_NODE "form" [] (Some 2%positive)
                  [4%positive; 6%positive])
            _ _ _ _ _ _ _ _).
  - reflexivity.
  - reflexivity.
  - reflexivity.
  - reflexivity.
  - reflexivity.
  - discriminate.
  - simpl. apply NoDup_cons. split.
    + intros [H|H]%elem_of_cons; [discriminate | by apply elem_of_nil in H].
    + apply NoDup_singleton.
  - simpl. apply elem_of_cons. by left.
Defined.

Lemma C10_can_written_only_on_rejection_witness :
  (∃ ev, unlink_leaf_node_with_attr (selecting []) (Some "//sense") (Some ["type"])
           (Some [Some "n"]) entry_doc (Some 1%positive) (Some false)
         = Some {| ret := None; can_out := Some false; store_out := entry_doc;
                   events := ev |}) ∧
  (∃ ev, unlink_leaf_node_with_attr (selecting [2%positive]) (Some "/entry")
           (Some ["type"]) (Some [Some "n"]) entry_doc (Some 1%positive) (Some true)
         = Some {| ret := None; can_out := Some false; store_out := entry_doc;
                   events := ev |}).
Proof.
  split.
  - refine (proj1 (C10_can_written_only_on_rejection (selecting []) "//sense"
                     (Some ["type"]) (Some [Some "n"]) entry_doc 1%positive false
                     100%positive _) _).
    + apply entry_doc_ready.
    + apply selecting_matches.
  - refine (proj2 (proj2 (C10_can_written_only_on_rejection (selecting [2%positive])
                            "/entry" (Some ["type"]) (Some [Some "n"]) entry_doc
                            1%positive true 100%positive _))
                  2%positive [] _ _).
    + apply entry_doc_ready.
    + apply selecting_matches.
    + reflexivity.
Defined.

(** C1: on the element [<orth type="n">text</orth>] with the whitelist
    name ["type"] and a NULL entry as its value, the validator has no
    result: the test that should accept any value looks at the pointer
    into the value array, not at the entry, and [strcmp] is called on the
    NULL entry.  With the entry ["n"] the same element is accepted. *)
Theorem C1_null_entry_has_no_result :
  has_only_text_children_and_allowed_attrs entry_doc (Some 4%positive)
    (Some ["type"]) (Some [None]) = None ∧
  has_only_text_children_and_allowed_attrs entry_doc (Some 4%positive)
    (Some ["type"]) (Some [Some "n"]) = Some true.
Proof. split; reflexivity. Qed.

Lemma C3_slot_cleared_after_publish_witness :
  ∃ res t,
    my_xmlXPathEvalExpression malformed "//orth]" entry_doc
      (Some {| ctxt_doc := Some 1%positive |}) SlotNull = Some (res, t) ∧
    t !! 1%nat = Some (SlotWrite (Some 100%positive)) ∧
    (∀ v, slot_after v t = None) ∧
    locked_after false t = false ∧
    (∀ n v, t !! n = Some (SlotWrite v) → locked_after false (take n t) = true) ∧
    (∀ n, slot_after None (take n t)
          = if decide (2 ≤ n ≤ length t - 2)%nat then Some 100%positive else None) ∧
    (∀ n, t !! n = Some (EvalExpr 100%positive) →
          slot_after None (take n t) = Some 100%positive) ∧
    (∀ n, t !! n = Some (FreeParserContext 100%positive) →
          locked_after false (take n t) = true).
Proof.
  apply (C3_slot_cleared_after_publish malformed "//orth]" entry_doc
           (Some {| ctxt_doc := Some 1%positive |}) SlotNull 100%positive);
    reflexivity.
Defined.

(** C6 (as stated) fails: an expression with unconsumed input, a rejected
    expression that leaves no object, a number result, a boolean result
    and an empty node set all reach the caller of [find_node_set] as the
    same NULL. *)
Lemma C6_failures_indistinguishable :
  fst <$> find_node_set malformed "//orth]" entry_doc (Some 1%positive) None
    = Some None ∧
  fst <$> find_node_set no_object "//orth[" entry_doc (Some 1%positive) None
    = fst <$> find_node_set malformed "//orth]" entry_doc (Some 1%positive) None ∧
  fst <$> find_node_set number_result "count(//orth)" entry_doc (Some 1%positive) None
    = fst <$> find_node_set malformed "//orth]" entry_doc (Some 1%positive) None ∧
  fst <$> find_node_set boolean_result "boolean(//orth)" entry_doc (Some 1%positive) None
    = fst <$> find_node_set malformed "//orth]" entry_doc (Some 1%positive) None ∧
  fst <$> find_node_set (selecting []) "//gramGrp" entry_doc (Some 1%positive) None
    = fst <$> find_node_set malformed "//orth]" entry_doc (Some 1%positive) None.
Proof. repeat split. Qed.

Lemma C6_failures_all_return_null_witness :
  (∃ ev, find_node_set malformed "//orth]" entry_doc (Some 1%positive) None
         = Some (None, ev) ∧
         XPathError "XPATH_EXPR_ERROR" ∈ ev ∧
         last ev = Some (Printed "No XPathObject!")) ∧
  (∃ ev, find_node_set boolean_result "boolean(//orth)" entry_doc (Some 1%positive) None
         = Some (None, ev) ∧
         last ev = Some (Printed "No nodeset!")).
Proof.
  split.
  - refine (proj1 (C6_failures_all_return_null malformed "//orth]" entry_doc
                     1%positive 100%positive None _) _).
    + apply entry_doc_ready.
    + discriminate.
  - refine (proj1 (proj2 (proj2 (C6_failures_all_return_null boolean_result
                     "boolean(//orth)" entry_doc 1%positive 100%positive None _)))
                  (boolean_object true) [] _ _ _).
    + apply entry_doc_ready.
    + reflexivity.
    + reflexivity.
    + reflexivity.
Defined.

Lemma three_orths_ready c1 c2 c3 :
  ready (three_orths c1 c2 c3) (entry_doc ∪ entry_copy) 11%positive 100%positive.
Proof.
  split; [reflexivity|]. split; [|reflexivity].
  eexists. split; [reflexivity | discriminate].
Defined.

Lemma three_orths_matches c1 c2 c3 xp h d :
  matches (three_orths c1 c2 c3) xp h d [14%positive; 16%positive; 18%positive].
Proof.
  split; [reflexivity|]. eexists _, _. split; reflexivity.
Defined.

Lemma C7_join_of_contents_witness :
  (∃ ev out,
     entry_orths_to_string (three_orths (Some (bytes "a")) None (Some (bytes "c")))
       entry_doc (Some 2%positive) 64 (Some []) = Some ((true, Some out), ev) ∧
     out = bytes "a, (null), c") ∧
  (∃ ev out,
     entry_orths_to_string
       (three_orths (Some [97; 97; 195; 169]) (Some (bytes "b")) (Some (bytes "c")))
       entry_doc (Some 2%positive) 4 (Some []) = Some ((true, Some out), ev) ∧
     out = bytes "aa").
Proof.
  split.
  - destruct (proj1 (proj2 (C7_join_of_contents
                       (three_orths (Some (bytes "a")) None (Some (bytes "c")))
                       entry_doc 2%positive 64 [] (entry_doc ∪ entry_copy)
                       11%positive 100%positive
                       [14%positive; 16%positive; 18%positive]
                       ((λ b, [b]) <$> bytes "a, (null), c") []
                       eq_refl eq_refl
                       (three_orths_ready _ _ _) (three_orths_matches _ _ _ _ _ _))))
      as (ev & out & Heq & Hout & _).
    + discriminate.
    + by eexists.
    + reflexivity.
    + vm_compute.
      repeat (apply (Chars_cons _ []); [discriminate | reflexivity |]).
      apply Chars_nil.
    + by right.
    + exists ev, out. split; [exact Heq|]. rewrite Hout. reflexivity.
  - destruct (proj1 (proj2 (C7_join_of_contents
                       (three_orths (Some [97; 97; 195; 169]) (Some (bytes "b"))
                          (Some (bytes "c")))
                       entry_doc 2%positive 4 [] (entry_doc ∪ entry_copy)
                       11%positive 100%positive
                       [14%positive; 16%positive; 18%positive]
                       [[97]; [97]] [195]
                       eq_refl eq_refl
                       (three_orths_ready _ _ _) (three_orths_matches _ _ _ _ _ _))))
      as (ev & out & Heq & Hout & _).
    + discriminate.
    + by eexists.
    + reflexivity.
    + vm_compute.
      repeat (apply (Chars_cons _ []); [discriminate | reflexivity |]).
      apply Chars_nil.
    + left. vm_compute. lia.
    + exists ev, out. split; [exact Heq|]. rewrite Hout. reflexivity.
Defined.

(** C7 (as stated) fails: with the contents "a", "" and "c" the stored
    text is "a, , c"; the placeholder stands for a NULL content, not for
    an empty one. *)
Lemma C7_empty_content_not_replaced :
  fst <$> entry_orths_to_string
            (three_orths (Some (bytes "a")) (Some (bytes "")) (Some (bytes "c")))
            entry_doc (Some 2%positive) 64 (Some [])
    = Some (true, Some (bytes "a, , c")) ∧
  bytes "a, , c" ≠ bytes "a, (null), c".
Proof. split; [reflexivity | discriminate]. Qed.

(** Readings of the loop and of the final copy that the amended C7
    leaves aside.  An empty first content leaves the buffer empty, so the
    next piece gets no separator.  When [g_strlcat] cuts the joined text
    inside a character and the copy comes to it, [g_utf8_strncpy] steps
    over the terminator: with a buffer of 4 bytes and the content "éé"
    the terminating byte is written at offset 4.  And when the table of
    the node set is full, the test of the loop reads the entry behind
    it. *)
Example leading_empty_content :
  fst <$> entry_orths_to_string
            (three_orths (Some (bytes "")) (Some (bytes "b")) (Some (bytes "c")))
            entry_doc (Some 2%positive) 64 (Some [])
    = Some (true, Some (bytes "b, c")).
Proof. reflexivity. Qed.

Example split_character_overrun :
  entry_orths_to_string
    (three_orths (Some [195; 169; 195; 169]) (Some (bytes "b")) (Some (bytes "c")))
    entry_doc (Some 2%positive) 4 (Some []) = None.
Proof. reflexivity. Qed.

Example full_table_overrun :
  entry_orths_to_string
    (full_table (Some (bytes "a")) (Some (bytes "b")) (Some (bytes "c")))
    entry_doc (Some 2%positive) 64 (Some []) = None.
Proof. reflexivity. Qed.

End XmlRuns.

(** * Further properties: the extension function and the scanner *)

Module ExtensionFacts.
Import Braces BracesFacts Xml Extension.

Lemma brace_false c : brace c = false → opener c = false ∧ closer_of c = None.
Proof.
  unfold brace. rewrite orb_false_iff, bool_decide_eq_false.
  intros [? Hc]. split; [done|]. destruct (closer_of c); [|done].
  exfalso. apply Hc. by eexists.
Qed.

(** The scan looks at the braces only. *)
Lemma scan_spec_filter cap s : ∀ stk,
  scan_spec cap s stk = scan_spec cap (filter (λ c, brace c = true) s) stk.
Proof.
  induction s as [|c s IH]; intros stk; [done|].
  destruct (brace c) eqn:Hb.
  - rewrite filter_cons_True by done. simpl.
    destruct (opener c); [case_decide; [apply IH | done]|].
    destruct (closer_of c); [|apply IH].
    destruct stk; [done|]. case_decide; [apply IH | done].
  - rewrite filter_cons_False by (by rewrite Hb).
    destruct (brace_false c Hb) as [Hop Hcl]. simpl. rewrite Hop, Hcl. apply IH.
Qed.

Lemma scan_result stack0 s rest :
  length stack0 = 100%nat → s ≠ [] → nul_free s →
  contains_unbalanced_braces stack0 (Some (cstring s rest))
    = Some (scan_spec 100 s []).
Proof.
  intros Hl Hne Hnul. unfold contains_unbalanced_braces.
  apply cub_loop_spec; auto using holds_init.
Qed.

(** X1: bytes other than the six braces do not count: two non-empty
    strings with the same braces in the same order get the same answer. *)
Theorem X1_other_bytes_skipped stack0 stack0' s s' rest rest' :
  length stack0 = 100%nat → length stack0' = 100%nat →
  s ≠ [] → nul_free s → s' ≠ [] → nul_free s' →
  filter (λ c, brace c = true) s = filter (λ c, brace c = true) s' →
  contains_unbalanced_braces stack0 (Some (cstring s rest))
    = contains_unbalanced_braces stack0' (Some (cstring s' rest')).
Proof.
  intros Hl Hl' Hne Hnul Hne' Hnul' Hf.
  rewrite !scan_result by done.
  by rewrite (scan_spec_filter 100 s), (scan_spec_filter 100 s'), Hf.
Qed.

Lemma X1_other_bytes_skipped_witness :
  contains_unbalanced_braces (repeat 0 100) (Some (cstring (bytes "f(x)[1]") []))
    = contains_unbalanced_braces (repeat 7 100)
        (Some (cstring (bytes "()[]") [40; 40])).
Proof.
  apply (X1_other_bytes_skipped (repeat 0 100) (repeat 7 100)
           (bytes "f(x)[1]") (bytes "()[]") [] [40; 40]).
  - reflexivity.
  - reflexivity.
  - discriminate.
  - repeat constructor; discriminate.
  - discriminate.
  - repeat constructor; discriminate.
  - reflexivity.
Defined.

Lemma excess_app s1 s2 : excess (s1 ++ s2) = excess s1 + excess s2.
Proof. induction s1 as [|c s1 IH]; simpl; lia. Qed.

Lemma Balanced_excess d s : Balanced d s → excess s = 0.
Proof.
  induction 1 as [d|d c s Hop Hcl _ IH|d o c s1 s2 Hcl _ IH1 _ IH2]; simpl.
  - done.
  - rewrite Hop, Hcl. rewrite bool_decide_eq_false_2 by (by intros [? ?]). lia.
  - rewrite excess_app. simpl.
    rewrite (closer_of_opener _ _ Hcl), (closer_not_opener _ _ Hcl), Hcl.
    rewrite bool_decide_eq_true_2 by (by eexists). lia.
Qed.

(** X2: one brace too many is found: a brace put anywhere into a string
    whose braces are all closed in the order opened makes the answer
    TRUE. *)
Theorem X2_added_brace_found stack0 s1 s2 c rest d :
  length stack0 = 100%nat → nul_free s1 → nul_free s2 →
  Balanced d (s1 ++ s2) → brace c = true →
  contains_unbalanced_braces stack0 (Some (cstring (s1 ++ c :: s2) rest))
    = Some true.
Proof.
  intros Hl Hn1 Hn2 Hbal Hc.
  assert (c ≠ 0) as Hc0.
  { intros ->. by vm_compute in Hc. }
  assert (s1 ++ c :: s2 ≠ []) by (by destruct s1).
  assert (nul_free (s1 ++ c :: s2)).
  { apply Forall_app. split; [done|]. by constructor. }
  rewrite scan_result by done.
  f_equal. destruct (scan_spec 100 (s1 ++ c :: s2) []) eqn:Hs; [done|].
  apply scan_spec_balanced, Balanced_excess in Hs.
  apply Balanced_excess in Hbal.
  rewrite excess_app in Hs, Hbal. simpl in Hs.
  unfold brace in Hc. destruct (opener c); [lia|].
  simpl in Hc. rewrite Hc in Hs. lia.
Qed.

Lemma X2_added_brace_found_witness :
  contains_unbalanced_braces (repeat 0 100) (Some (cstring (bytes "(a]b)") []))
    = Some true.
Proof.
  apply (X2_added_brace_found (repeat 0 100) (bytes "(a") (bytes "b)") 93 [] 100).
  - reflexivity.
  - repeat constructor; discriminate.
  - repeat constructor; discriminate.
  - apply scan_spec_balanced. reflexivity.
  - reflexivity.
Defined.

(** X3: two strings that pass, one after the other, pass. *)
Theorem X3_concatenation_passes stack0 s1 s2 rest :
  length stack0 = 100%nat →
  s1 ≠ [] → nul_free s1 → s2 ≠ [] → nul_free s2 →
  contains_unbalanced_braces stack0 (Some (cstring s1 rest)) = Some false →
  contains_unbalanced_braces stack0 (Some (cstring s2 rest)) = Some false →
  contains_unbalanced_braces stack0 (Some (cstring (s1 ++ s2) rest)) = Some false.
Proof.
  intros Hl Hne1 Hn1 Hne2 Hn2.
  assert (s1 ++ s2 ≠ []) by (by destruct s1).
  assert (nul_free (s1 ++ s2)) by (by apply Forall_app).
  rewrite !scan_result by done.
  intros [= H1] [= H2]. f_equal.
  apply scan_spec_balanced in H1.
  by rewrite (scan_balanced 100 100 s1 H1 [] s2) by (simpl; lia).
Qed.

Lemma X3_concatenation_passes_witness :
  contains_unbalanced_braces (repeat 0 100) (Some (cstring (bytes "(a)[b]") []))
    = Some false.
Proof.
  apply (X3_concatenation_passes (repeat 0 100) (bytes "(a)") (bytes "[b]") []).
  - reflexivity.
  - discriminate.
  - repeat constructor; discriminate.
  - discriminate.
  - repeat constructor; discriminate.
  - reflexivity.
  - reflexivity.
Defined.

(** The loop over nodes whose contents are NULL or non-empty strings. *)
Lemma nodes_loop_texts stack0 text behind nodes :
  length stack0 = 100%nat →
  Forall (λ n, ∀ s, text n = Some s → s ≠ [] ∧ nul_free s) nodes →
  ∃ b, nodes_loop stack0 (content_of text behind) nodes false = Some b ∧
       (b = false ↔ Forall (λ n, ∀ s, text n = Some s → Balanced 100 s) nodes).
Proof.
  intros Hl. induction 1 as [|n nodes Hn _ (b & IH & Hiff)].
  - exists false. split; [done|]. split; [constructor | done].
  - cbn [nodes_loop]. unfold content_of at 1.
    destruct (text n) as [s|] eqn:Ht; cbn [fmap option_fmap option_map].
    + destruct (Hn s eq_refl) as [Hne Hnul]. rewrite scan_result by done.
      destruct (scan_spec 100 s []) eqn:Hs.
      * exists true. split; [done|]. split; [done|].
        intros [Hb _]%Forall_cons. apply (Hb s), scan_spec_balanced in Ht.
        congruence.
      * exists b. split; [done|]. rewrite Hiff, Forall_cons.
        split; [|tauto]. intros ?. split; [|done].
        intros s' Hs'. rewrite Ht in Hs'. injection Hs' as <-.
        by apply scan_spec_balanced.
    + exists b. split; [done|]. rewrite Hiff, Forall_cons.
      split; [|tauto]. intros ?. split; [|done].
      intros s' Hs'. by rewrite Ht in Hs'.
Qed.

(** X4: called with one argument, a node set whose nodes have no content
    or a non-empty one, the extension function returns a boolean, and it
    is FALSE exactly when in the content of every node the braces are all
    closed in the order opened, at most 100 deep. *)
Theorem X4_extension_any_node stack0 text behind ns :
  length stack0 = 100%nat →
  Forall (λ n, ∀ s, text n = Some s → s ≠ [] ∧ nul_free s) (nodeTab ns) →
  ∃ b, freedict_xpath_extension_unbalanced_braces stack0
         (content_of text behind) 1 (Some ns) false = Some (Boolean b) ∧
       (b = false ↔
          Forall (λ n, ∀ s, text n = Some s → Balanced 100 s) (nodeTab ns)).
Proof.
  intros Hl Hall. unfold freedict_xpath_extension_unbalanced_braces.
  rewrite decide_False by (by intros ?).
  destruct (nodes_loop_texts stack0 text behind (nodeTab ns) Hl Hall)
    as (b & -> & Hiff).
  by exists b.
Qed.

Lemma X4_extension_any_node_witness :
  ∃ b, freedict_xpath_extension_unbalanced_braces (repeat 0 100)
         (content_of (λ n, if decide (n = 4%positive) then Some (bytes "{x}") else None)
                     (λ _, []))
         1 (Some {| nodeTab := [4%positive; 5%positive] |}) false = Some (Boolean b) ∧
       (b = false ↔
          Forall (λ n, ∀ s, (if decide (n = 4%positive) then Some (bytes "{x}") else None)
                              = Some s → Balanced 100 s)
                 [4%positive; 5%positive]).
Proof.
  apply (X4_extension_any_node (repeat 0 100)
           (λ n, if decide (n = 4%positive) then Some (bytes "{x}") else None)
           (λ _, []) {| nodeTab := [4%positive; 5%positive] |}).
  - reflexivity.
  - constructor; [|constructor; [|constructor]]; intros s Hs; vm_compute in Hs.
    + injection Hs as <-. split; [discriminate | repeat constructor; discriminate].
    + discriminate.
Defined.

(** X5: the loop stops at the first node that fails: what
    [xmlNodeGetContent] returns for the nodes behind it is not looked
    at. *)
Theorem X5_extension_stops_at_first stack0 content pre n post s rest :
  length stack0 = 100%nat →
  Forall (λ m, content m = None ∨
               contains_unbalanced_braces stack0 (content m) = Some false) pre →
  content n = Some (cstring s rest) → s ≠ [] → nul_free s →
  ¬ Balanced 100 s →
  freedict_xpath_extension_unbalanced_braces stack0 content 1
    (Some {| nodeTab := pre ++ n :: post |}) false = Some (Boolean true).
Proof.
  intros Hl Hpre Hn Hne Hnul Hbad.
  unfold freedict_xpath_extension_unbalanced_braces.
  rewrite decide_False by (by intros ?). cbn [nodeTab].
  assert (nodes_loop stack0 content (pre ++ n :: post) false = Some true) as ->;
    [|done].
  induction Hpre as [|m pre Hm _ IH]; cbn [nodes_loop app].
  - rewrite Hn, scan_result by done.
    destruct (scan_spec 100 s []) eqn:Hs; [done|].
    by apply scan_spec_balanced in Hs.
  - destruct (content m) as [c|] eqn:Hc; [|exact IH].
    destruct Hm as [?|Hm]; [done|]. by rewrite Hm.
Qed.

Lemma X5_extension_stops_at_first_witness :
  freedict_xpath_extension_unbalanced_braces (repeat 0 100)
    (λ n, if decide (n = 4%positive) then Some (cstring (bytes "a") [])
          else if decide (n = 5%positive) then Some (cstring (bytes "(") [1; 2])
          else Some [])
    1 (Some {| nodeTab := [4%positive] ++ 5%positive :: [6%positive] |}) false
    = Some (Boolean true).
Proof.
  apply (X5_extension_stops_at_first (repeat 0 100) _ [4%positive] 5%positive
           [6%positive] (bytes "(") [1; 2]).
  - reflexivity.
  - constructor; [|constructor]. right. reflexivity.
  - reflexivity.
  - discriminate.
  - repeat constructor; discriminate.
  - intros H%scan_spec_balanced. discriminate.
Defined.

End ExtensionFacts.

(** * Further properties: label and value lists *)

Module ValuesFacts.
Import ValuesC.

Lemma terminated_nil : ¬ terminated [].
Proof. unfold terminated. simpl. lia. Qed.

Lemma terminated_cons e arr v :
  value e = Some v → terminated (e :: arr) → terminated arr.
Proof. unfold terminated. simpl. intros ->. simpl. lia. Qed.

Lemma index2value_loop_lookup arr : ∀ i index,
  terminated arr →
  index2value_loop arr i index = Some (valued arr !! Z.to_nat (index - i)).
Proof.
  induction arr as [|e arr IH]; intros i index Ht.
  - by apply terminated_nil in Ht.
  - simpl. destruct (value e) as [v|] eqn:Hv.
    + case_decide.
      * rewrite IH by eauto using terminated_cons.
        by replace (Z.to_nat (index - i)) with (S (Z.to_nat (index - (i + 1)))) by lia.
      * by replace (Z.to_nat (index - i)) with 0%nat by lia.
    + by case_decide.
Qed.

(** X6: on an array that ends with an entry without value, [index2value]
    returns the value at [index] among the values in front of that entry,
    and NULL when there are not that many. *)
Theorem X6_index2value_lookup arr index :
  terminated arr →
  index2value (Some arr) index = Some (valued arr !! Z.to_nat index).
Proof.
  intros Ht. unfold index2value.
  rewrite index2value_loop_lookup by done. by rewrite Z.sub_0_r.
Qed.

Lemma X6_index2value_lookup_witness :
  index2value (Some pos_values_default) 3 = Some (Some (bytes "vt")) ∧
  index2value (Some pos_values_default) 17 = Some None.
Proof.
  split.
  - apply (X6_index2value_lookup pos_values_default 3).
    unfold terminated. simpl. lia.
  - apply (X6_index2value_lookup pos_values_default 17).
    unfold terminated. simpl. lia.
Defined.

(** X7: a negative index is not out of bounds: it is served like index
    0. *)
Theorem X7_index2value_negative values index :
  index < 0 → index2value values index = index2value values 0.
Proof.
  intros Hi. destruct values as [[|e arr]|]; [done| |done].
  simpl. by rewrite !decide_False by lia.
Qed.

Lemma X7_index2value_negative_witness :
  index2value (Some gen_values_default) (-5) = index2value (Some gen_values_default) 0.
Proof. apply (X7_index2value_negative (Some gen_values_default) (-5)). lia. Defined.

Lemma value2index_loop_find arr v : ∀ i,
  terminated arr → i + Z.of_nat (length (valued arr)) ≤ INT_MAX →
  value2index_loop arr v i
    = Some (match list_find (λ w, v = w) (valued arr) with
            | Some (k, _) => i + Z.of_nat k
            | None => -1
            end).
Proof.
  induction arr as [|e arr IH]; intros i Ht Hi.
  - by apply terminated_nil in Ht.
  - simpl. destruct (value e) as [w|] eqn:Hv; [|done].
    cbn [valued] in Hi. rewrite Hv in Hi. cbn [length] in Hi.
    rewrite Nat2Z.inj_succ in Hi.
    cbn [list_find]. destruct (decide (v = w)) as [->|Hne].
    + simpl. f_equal. lia.
    + rewrite decide_False by lia.
      rewrite IH by (eauto using terminated_cons || lia).
      destruct (list_find _ (valued arr)) as [[k x]|]; simpl; [|done].
      f_equal. lia.
Qed.

(** X8: on such an array with at most [INT_MAX] values, [value2index]
    returns the index of the first entry with that value, and -1 when
    there is none. *)
Theorem X8_value2index_first arr v :
  terminated arr → Z.of_nat (length (valued arr)) ≤ INT_MAX →
  value2index (Some arr) (Some v) = Some (first_index v (valued arr)).
Proof.
  intros Ht Hl. unfold value2index, first_index.
  rewrite value2index_loop_find by (done || lia).
  by destruct (list_find _ _) as [[k x]|].
Qed.

Lemma X8_value2index_first_witness :
  value2index (Some domain_values_default) (Some (bytes "law")) = Some 14 ∧
  value2index (Some domain_values_default) (Some (bytes "n")) = Some (-1).
Proof.
  split.
  - apply (X8_value2index_first domain_values_default (bytes "law")).
    + unfold terminated. simpl. lia.
    + vm_compute. discriminate.
  - apply (X8_value2index_first domain_values_default (bytes "n")).
    + unfold terminated. simpl. lia.
    + vm_compute. discriminate.
Defined.

(** X9: a value of the array is found again at the index that
    [value2index] gives for it. *)
Theorem X9_value_index_value arr v :
  terminated arr → Z.of_nat (length (valued arr)) ≤ INT_MAX → v ∈ valued arr →
  ∃ i, value2index (Some arr) (Some v) = Some i ∧
       index2value (Some arr) i = Some (Some v).
Proof.
  intros Ht Hl Hv. unfold value2index, index2value.
  rewrite value2index_loop_find by (done || lia).
  destruct (list_find_elem_of (λ w, v = w) (valued arr) v Hv eq_refl) as [[k x] Hf].
  rewrite Hf. eexists. split; [done|].
  apply list_find_Some in Hf as (Hk & <- & _).
  rewrite index2value_loop_lookup by done.
  replace (Z.to_nat (0 + Z.of_nat k - 0)) with k by lia. by rewrite Hk.
Qed.

Lemma X9_value_index_value_witness :
  ∃ i, value2index (Some xr_values_default) (Some (bytes "syn")) = Some i ∧
       index2value (Some xr_values_default) i = Some (Some (bytes "syn")).
Proof.
  apply (X9_value_index_value xr_values_default (bytes "syn")).
  - unfold terminated. simpl. lia.
  - vm_compute. discriminate.
  - apply (bool_decide_unpack _). vm_compute. exact I.
Defined.

Lemma find_at_index (l : list text) k v :
  NoDup l → l !! k = Some v → list_find (λ w, v = w) l = Some (k, v).
Proof.
  intros Hnd Hv.
  destruct (list_find_elem_of (λ w, v = w) l v) as [[j x] Hf];
    [by eapply list_elem_of_lookup_2 | done |].
  rewrite Hf. apply list_find_Some in Hf as (Hj & <- & _).
  by rewrite (NoDup_lookup _ _ _ _ Hnd Hj Hv).
Qed.

(** X10: when no value occurs twice, an index below the number of values
    is found again from the value that [index2value] gives for it. *)
Theorem X10_index_value_index arr index :
  terminated arr → Z.of_nat (length (valued arr)) ≤ INT_MAX →
  NoDup (valued arr) → 0 ≤ index < Z.of_nat (length (valued arr)) →
  ∃ v, index2value (Some arr) index = Some (Some v) ∧
       value2index (Some arr) (Some v) = Some index.
Proof.
  intros Ht Hl Hnd Hi. unfold value2index, index2value.
  rewrite index2value_loop_lookup by done. rewrite Z.sub_0_r.
  destruct (lookup_lt_is_Some_2 (valued arr) (Z.to_nat index)) as [v Hv]; [lia|].
  exists v. split; [by rewrite Hv|].
  rewrite value2index_loop_find by (done || lia).
  rewrite (find_at_index _ _ _ Hnd Hv). f_equal. lia.
Qed.

Lemma X10_index_value_index_witness :
  ∃ v, index2value (Some num_values_default) 2 = Some (Some v) ∧
       value2index (Some num_values_default) (Some v) = Some 2.
Proof.
  apply (X10_index_value_index num_values_default 2).
  - unfold terminated. simpl. lia.
  - vm_compute. discriminate.
  - apply (bool_decide_unpack _). vm_compute. exact I.
  - simpl. lia.
Defined.

(** The values come back in a different order only where a value occurs
    twice: the second "n" gives the index of the first. *)
Example repeated_value_first_index :
  let arr := [entry "Noun" "n"; entry "Neuter" "n"; table_end] in
  index2value (Some arr) 1 = Some (Some (bytes "n")) ∧
  value2index (Some arr) (Some (bytes "n")) = Some 0.
Proof. split; reflexivity. Qed.

Lemma default_table_shape T :
  T ∈ default_tables →
  terminated T ∧ ended T ∧ NoDup (valued T) ∧ Forall convertible (pairs T) ∧
  Z.of_nat (length (valued T)) ≤ INT_MAX.
Proof.
  intros HT. unfold default_tables in HT.
  repeat (apply elem_of_cons in HT as [->|HT]); [..|by apply not_elem_of_nil in HT];
    (split; [unfold terminated; simpl; lia|]);
    (split; [unfold ended; simpl; lia|]);
    (split; [apply (bool_decide_unpack _); vm_compute; exact I|]);
    (split; [|vm_compute; discriminate]);
    apply (bool_decide_unpack _); vm_compute; exact I.
Qed.

(** X11: in each of the six default tables, every index of an entry is
    found again from its value: no table lists a value twice. *)
Theorem X11_default_tables_index_round_trip T index :
  T ∈ default_tables → 0 ≤ index < Z.of_nat (length (valued T)) →
  ∃ v, index2value (Some T) index = Some (Some v) ∧
       value2index (Some T) (Some v) = Some index.
Proof.
  intros HT Hi. destruct (default_table_shape T HT) as (Ht & _ & Hnd & _ & Hl).
  unfold value2index, index2value.
  rewrite index2value_loop_lookup by done. rewrite Z.sub_0_r.
  destruct (lookup_lt_is_Some_2 (valued T) (Z.to_nat index)) as [v Hv]; [lia|].
  exists v. split; [by rewrite Hv|].
  rewrite value2index_loop_find by (done || lia).
  rewrite (find_at_index _ _ _ Hnd Hv). f_equal. lia.
Qed.

Lemma X11_default_tables_index_round_trip_witness :
  ∃ v, index2value (Some register_values_default) 9 = Some (Some v) ∧
       value2index (Some register_values_default) (Some v) = Some 9.
Proof.
  apply (X11_default_tables_index_round_trip register_values_default 9).
  - unfold default_tables. do 5 apply list_elem_of_further. apply list_elem_of_here.
  - simpl. lia.
Defined.

(** ** Blocks *)

Lemma poke_length b off x b' : poke b off x = Some b' → length b' = length b.
Proof.
  unfold poke. case_decide; [|done]. intros [= <-]. by rewrite length_insert.
Qed.

Lemma poke_all_length xs : ∀ b off b',
  poke_all b off xs = Some b' → length b' = length b.
Proof.
  induction xs as [|x xs IH]; intros b off b'; simpl.
  - by intros [= <-].
  - destruct (poke b off x) as [b1|] eqn:Hp; [|done]. simpl.
    intros H%IH. rewrite H. by eapply poke_length.
Qed.

(** What is written has to fit. *)
Lemma poke_all_bound xs : ∀ b off b',
  xs ≠ [] → 0 ≤ off → poke_all b off xs = Some b' →
  off + Z.of_nat (length xs) ≤ Z.of_nat (length b).
Proof.
  induction xs as [|x xs IH]; intros b off b' Hne Hoff; [done|]. simpl.
  destruct (poke b off x) as [b1|] eqn:Hp; [|done]. simpl. intros Hall.
  pose proof (poke_length _ _ _ _ Hp) as Hlen.
  unfold poke in Hp. case_decide; [|done].
  destruct xs as [|y xs]; [simpl; lia|].
  apply IH in Hall; [|done|lia]. rewrite Hlen in Hall.
  cbn [length] in *. lia.
Qed.

Lemma poke_all_app xs ys : ∀ b off,
  poke_all b off (xs ++ ys)
    = poke_all b off xs ≫= λ b', poke_all b' (off + Z.of_nat (length xs)) ys.
Proof.
  induction xs as [|x xs IH]; intros b off.
  - simpl. by rewrite Z.add_0_r.
  - cbn [app poke_all length]. destruct (poke b off x) as [b1|]; [|done].
    cbn [mbind option_bind]. rewrite IH. apply option_bind_ext_fun.
    intros b'. f_equal. lia.
Qed.

(** Writing into the part of a block never written before. *)
Lemma poke_all_fill xs : ∀ (pre holes : block),
  (length xs ≤ length holes)%nat →
  poke_all (pre ++ holes) (Z.of_nat (length pre)) xs
    = Some (pre ++ (Some <$> xs) ++ drop (length xs) holes).
Proof.
  induction xs as [|x xs IH]; intros pre holes Hl; [done|].
  destruct holes as [|h holes]; [simpl in Hl; lia|].
  cbn [poke_all]. unfold poke. rewrite decide_True
    by (rewrite length_app; cbn [length]; lia).
  rewrite Nat2Z.id.
  replace (<[length pre:=Some x]> (pre ++ h :: holes))
    with ((pre ++ [Some x]) ++ holes).
  2:{ rewrite <- (Nat.add_0_r (length pre)), insert_app_r.
      by rewrite <- app_assoc. }
  cbn [mbind option_bind].
  replace (Z.of_nat (length pre) + 1) with (Z.of_nat (length (pre ++ [Some x])))
    by (rewrite length_app; simpl; lia).
  rewrite IH by (simpl in Hl; lia).
  by rewrite <- app_assoc.
Qed.

Lemma poke_all_fresh K xs :
  (length xs ≤ K)%nat →
  poke_all (replicate K None) 0 xs
    = Some ((Some <$> xs) ++ replicate (K - length xs) None).
Proof.
  intros Hl.
  rewrite <- (length_replicate K (@None Z)) in Hl at 1.
  apply (poke_all_fill xs []) in Hl. rewrite drop_replicate in Hl. exact Hl.
Qed.

Lemma c_string_written s tail :
  nul_free s → c_string ((Some <$> (s ++ [0])) ++ tail) = Some s.
Proof.
  induction 1 as [|x s Hx _ IH]; [done|].
  cbn [app fmap list_fmap c_string]. rewrite decide_False by done.
  by rewrite IH.
Qed.

Lemma c_string_nul_free b : ∀ s, c_string b = Some s → nul_free s.
Proof.
  induction b as [|[x|] b IH]; intros s; simpl; [done| |done].
  case_decide; [intros [= <-]; constructor|].
  destruct (c_string b) as [t|]; [|done]. intros [= <-].
  constructor; [done | by apply IH].
Qed.

(** The three writes of [Values2GSList] into the block of an entry. *)
Lemma write_entry {B} data l v (k : block → option B) :
  (strncpy data 0 l (Z.of_nat (length l)) ≫= λ d1,
   poke d1 (Z.of_nat (length l)) 9 ≫= λ d2,
   strcpy d2 (Z.of_nat (length l) + 1) v ≫= k)
  = poke_all data 0 (l ++ 9 :: v ++ [0]) ≫= k.
Proof.
  unfold strncpy, strcpy. rewrite Nat2Z.id, take_app_length.
  rewrite (poke_all_app l). rewrite Z.add_0_l.
  destruct (poke_all data 0 l) as [d1|]; [|done]. cbn [mbind option_bind poke_all].
  by destruct (poke d1 _ 9).
Qed.

(** X12: [Values2GSList] asks for one byte less than it writes: when the
    block is no longer than asked for, the terminator of the first string
    falls outside it. *)
Theorem X12_Values2GSList_one_byte_short usable e arr l v :
  label e = Some l → value e = Some v →
  usable (Z.of_nat (length l) + Z.of_nat (length v) + 1)
    ≤ Z.of_nat (length l) + Z.of_nat (length v) + 1 →
  Values2GSList usable (Some (e :: arr)) = None.
Proof.
  intros Hl Hv Hu. unfold Values2GSList. cbn [Values2GSList_loop].
  rewrite Hl, Hv. case_decide; [done|]. cbv zeta.
  rewrite write_entry.
  destruct (poke_all _ 0 _) as [d|] eqn:Hp; [|done]. exfalso.
  apply poke_all_bound in Hp; [|by destruct l|lia].
  unfold g_malloc in Hp. rewrite length_replicate, length_app in Hp.
  cbn [length] in Hp. rewrite length_app in Hp. simpl in Hp. lia.
Qed.

Lemma X12_Values2GSList_one_byte_short_witness :
  Values2GSList (λ n, n) (Some pos_values_default) = None.
Proof.
  apply (X12_Values2GSList_one_byte_short (λ n, n) (entry "None" "") _
           (bytes "None") (bytes "")).
  - reflexivity.
  - reflexivity.
  - simpl. lia.
Defined.

Lemma ended_nil : ¬ ended [].
Proof. unfold ended. simpl. lia. Qed.

Lemma ended_cons e arr l v :
  label e = Some l → value e = Some v → ended (e :: arr) → ended arr.
Proof. unfold ended. simpl. intros -> ->. simpl. lia. Qed.

Lemma joined_nul_free l v : nul_free l → nul_free v → nul_free (joined l v).
Proof. intros Hl Hv. apply Forall_app. split; [done|]. by constructor. Qed.

(** The loop of [Values2GSList] puts the strings of the entries in front
    of the list it starts with, the last entry first. *)
Lemma Values2GSList_loop_strings usable arr : ∀ g0,
  (∀ n, 0 ≤ n → n + 1 ≤ usable n) → ended arr →
  Forall (λ lv, nul_free lv.1 ∧ nul_free lv.2 ∧ Z.of_nat (length lv.1) ≤ INT_MAX)
         (pairs arr) →
  ∃ g, Values2GSList_loop usable arr g0 = Some (g ++ g0) ∧
       Forall2 (λ data lv, c_string data = Some (joined lv.1 lv.2))
               g (reverse (pairs arr)).
Proof.
  induction arr as [|e arr IH]; intros g0 Hu He Hall.
  - by apply ended_nil in He.
  - cbn [Values2GSList_loop pairs] in *.
    destruct (label e) as [l|] eqn:Hl; [|exists []; split; [done | constructor]].
    destruct (value e) as [v|] eqn:Hv; [|exists []; split; [done | constructor]].
    apply Forall_cons in Hall as [(Hnl & Hnv & Hlen) Hall]. cbn [fst snd] in *.
    rewrite decide_False by lia. cbv zeta. rewrite write_entry.
    unfold g_malloc. rewrite poke_all_fresh.
    2:{ rewrite length_app. cbn [length]. rewrite length_app. cbn [length].
        specialize (Hu (Z.of_nat (length l) + Z.of_nat (length v) + 1)). lia. }
    cbn [mbind option_bind].
    match goal with
    | |- context [Values2GSList_loop usable arr (?d :: g0)] =>
        destruct (IH (d :: g0) Hu (ended_cons _ _ _ _ Hl Hv He) Hall) as (g & -> & HF);
        exists (g ++ [d])
    end.
    split; [by rewrite <- app_assoc|].
    rewrite reverse_cons. apply Forall2_app; [done|].
    constructor; [|constructor]. cbn [fst snd].
    replace (l ++ 9 :: v ++ [0]) with (joined l v ++ [0])
      by (unfold joined; by rewrite <- app_assoc).
    by apply c_string_written, joined_nul_free.
Qed.

(** X13: when each block has a byte more than asked for, [Values2GSList]
    returns one string per entry in front of the first incomplete one:
    label, TAB, value; the string of the last entry comes first. *)
Theorem X13_Values2GSList_reversed usable arr :
  (∀ n, 0 ≤ n → n + 1 ≤ usable n) → ended arr →
  Forall (λ lv, nul_free lv.1 ∧ nul_free lv.2 ∧ Z.of_nat (length lv.1) ≤ INT_MAX)
         (pairs arr) →
  ∃ g, Values2GSList usable (Some arr) = Some g ∧
       Forall2 (λ data lv, c_string data = Some (joined lv.1 lv.2))
               g (reverse (pairs arr)).
Proof.
  intros Hu He Hall.
  destruct (Values2GSList_loop_strings usable arr [] Hu He Hall) as (g & Hg & HF).
  exists g. split; [|done]. unfold Values2GSList. by rewrite Hg, app_nil_r.
Qed.

Lemma X13_Values2GSList_reversed_witness :
  ∃ g, Values2GSList (λ n, n + 1) (Some num_values_default) = Some g ∧
       Forall2 (λ data lv, c_string data = Some (joined lv.1 lv.2)) g
         (reverse (pairs num_values_default)).
Proof.
  apply (X13_Values2GSList_reversed (λ n, n + 1) num_values_default).
  - intros n Hn. lia.
  - unfold ended. simpl. lia.
  - apply (bool_decide_unpack _). vm_compute. exact I.
Defined.

Lemma index_tab_first l v : 9 ∉ l → index_tab (l ++ 9 :: v) = Some (length l).
Proof.
  induction l as [|c l IH]; intros Hl; simpl.
  - done.
  - apply not_elem_of_cons in Hl as [? ?].
    rewrite decide_False by done. by rewrite IH.
Qed.

Lemma index_tab_none s : 9 ∉ s → index_tab s = None.
Proof.
  induction s as [|c s IH]; intros Hs; [done|]. simpl.
  apply not_elem_of_cons in Hs as [? ?].
  rewrite decide_False by done. by rewrite IH.
Qed.

Lemma drop_behind (l : text) c v : drop (S (length l)) (l ++ c :: v) = v.
Proof. induction l as [|x l IH]; [done|]. exact IH. Qed.

Lemma take_with_terminator (v t : text) :
  take (S (length v)) (v ++ 0 :: t) = v ++ [0].
Proof. induction v as [|x v IH]; [done|]. simpl. by rewrite IH. Qed.

Lemma poke_fill (pre : block) h holes x :
  poke (pre ++ h :: holes) (Z.of_nat (length pre)) x = Some (pre ++ Some x :: holes).
Proof.
  unfold poke. rewrite decide_True by (rewrite length_app; cbn [length]; lia).
  rewrite Nat2Z.id. f_equal.
  by rewrite <- (Nat.add_0_r (length pre)), insert_app_r.
Qed.

Lemma strncpy_label K (l : text) c v :
  (length l ≤ K)%nat →
  strncpy (replicate K None) 0 (l ++ c :: v) (Z.of_nat (length l))
    = Some ((Some <$> l) ++ replicate (K - length l) None).
Proof.
  intros HK. unfold strncpy. rewrite Nat2Z.id, <- app_assoc, take_app_length.
  by apply poke_all_fresh.
Qed.

Lemma strncpy_value K (v : text) :
  (S (length v) ≤ K)%nat →
  strncpy (replicate K None) 0 v (Z.of_nat (length v) + 1)
    = Some ((Some <$> v ++ [0]) ++ replicate (K - S (length v)) None).
Proof.
  intros HK. unfold strncpy.
  replace (Z.to_nat (Z.of_nat (length v) + 1)) with (S (length v)) by lia.
  cbn [replicate]. rewrite take_with_terminator.
  rewrite poke_all_fresh by (rewrite length_app; cbn [length]; lia).
  do 3 f_equal. rewrite length_app. cbn [length]. lia.
Qed.

(** One round of the loop of [GSList2Values] on the string of a label
    without TAB and a value. *)
Lemma GSList2Values_loop_cons usable data g l v :
  (∀ n, 0 ≤ n → n ≤ usable n) →
  c_string data = Some (joined l v) → 9 ∉ l →
  Z.of_nat (length l) < INT_MAX → Z.of_nat (length v) < INT_MAX →
  GSList2Values_loop usable (data :: g)
    = GSList2Values_loop usable g ≫= λ rest, Some (entry_of (l, v) :: rest).
Proof.
  intros Hu Hc Hl Hll Hlv.
  pose proof (c_string_nul_free _ _ Hc) as [Hnl Hnv]%Forall_app.
  apply Forall_cons in Hnv as [_ Hnv].
  cbn [GSList2Values_loop]. rewrite Hc. cbn [mbind option_bind].
  unfold joined. rewrite index_tab_first by done. cbn [mbind option_bind].
  rewrite decide_False by lia. cbv zeta. rewrite drop_behind.
  unfold g_malloc.
  rewrite strncpy_label by (specialize (Hu (Z.of_nat (length l) + 1)); lia).
  cbn [mbind option_bind].
  destruct (Z.to_nat (usable (Z.of_nat (length l) + 1)%Z) - length l)%nat
    as [|m] eqn:Hm; [specialize (Hu (Z.of_nat (length l) + 1)); lia|].
  cbn [replicate].
  rewrite <- (length_fmap Some l) at 1. rewrite poke_fill. cbn [mbind option_bind].
  rewrite decide_False by lia.
  rewrite strncpy_value by (specialize (Hu (Z.of_nat (length v) + 1)); lia).
  cbn [mbind option_bind].
  replace ((Some <$> l) ++ Some 0 :: replicate m None)
    with ((Some <$> l ++ [0]) ++ replicate m (@None Z))
    by (by rewrite fmap_app, <- app_assoc).
  rewrite !c_string_written by done. done.
Qed.

Lemma GSList2Values_loop_split usable g lvs :
  (∀ n, 0 ≤ n → n ≤ usable n) →
  Forall2 (λ data lv, c_string data = Some (joined lv.1 lv.2) ∧ convertible lv) g lvs →
  GSList2Values_loop usable g = Some ((entry_of <$> lvs) ++ [table_end]).
Proof.
  intros Hu. induction 1 as [|data [l v] g lvs [Hc (_ & _ & Hl & Hll & Hlv)] _ IH].
  - done.
  - cbn [fst snd] in *.
    rewrite (GSList2Values_loop_cons usable data g l v) by done.
    by rewrite IH.
Qed.

(** X14: [GSList2Values] splits each string at its first TAB into label
    and value, keeps the order of the list, and ends the array with the
    entry of two NULLs.  Blocks of the size asked for are enough. *)
Theorem X14_GSList2Values_splits usable g lvs :
  (∀ n, 0 ≤ n → n ≤ usable n) → g ≠ [] →
  Forall2 (λ data lv, c_string data = Some (joined lv.1 lv.2) ∧
                      (9 ∉ lv.1) ∧ Z.of_nat (length lv.1) < INT_MAX ∧
                      Z.of_nat (length lv.2) < INT_MAX) g lvs →
  GSList2Values usable g = Some (Some ((entry_of <$> lvs) ++ [table_end])).
Proof.
  intros Hu Hne HF. unfold GSList2Values.
  destruct g as [|data g]; [done|].
  rewrite (GSList2Values_loop_split usable (data :: g) lvs); [done..|].
  eapply Forall2_impl; [exact HF|]. intros d [l v] (Hc & Hl & Hll & Hlv).
  split; [done|].
  pose proof (c_string_nul_free _ _ Hc) as [Hnl Hnv]%Forall_app.
  apply Forall_cons in Hnv as [_ Hnv]. by repeat split.
Qed.

Lemma X14_GSList2Values_splits_witness :
  GSList2Values (λ n, n)
    [Some <$> (bytes "Verb" ++ [9] ++ bytes "v" ++ [0]);
     Some <$> (bytes "a b" ++ [9] ++ [9; 120] ++ [0; 7])]
  = Some (Some [ {| label := Some (bytes "Verb"); value := Some (bytes "v") |};
                 {| label := Some (bytes "a b"); value := Some [9; 120] |};
                 table_end ]).
Proof.
  apply (X14_GSList2Values_splits (λ n, n) _ [(bytes "Verb", bytes "v"); (bytes "a b", [9; 120])]).
  - intros n Hn. lia.
  - discriminate.
  - constructor; [|constructor; [|constructor]].
    + split; [reflexivity|]. split; [|simpl; unfold INT_MAX; lia].
      apply (bool_decide_unpack _). vm_compute. exact I.
    + split; [reflexivity|]. split; [|simpl; unfold INT_MAX; lia].
      apply (bool_decide_unpack _). vm_compute. exact I.
Defined.

(** X15: a string without TAB anywhere in the list makes the assertion
    fail: the conversion has no result. *)
Theorem X15_GSList2Values_no_tab usable pre data post s :
  c_string data = Some s → 9 ∉ s →
  GSList2Values usable (pre ++ data :: post) = None.
Proof.
  intros Hc Hs.
  assert (GSList2Values_loop usable (pre ++ data :: post) = None) as Hloop.
  { induction pre as [|d pre IH]; cbn [app GSList2Values_loop].
    - rewrite Hc. cbn [mbind option_bind]. by rewrite index_tab_none.
    - rewrite IH.
      repeat match goal with
      | |- context [decide ?P] => destruct (decide P); [done|]
      | |- ?m ≫= _ = None => destruct m; cbn [mbind option_bind]; [|done]
      end; done. }
  unfold GSList2Values. destruct pre; cbn [app] in *; by rewrite Hloop.
Qed.

Lemma X15_GSList2Values_no_tab_witness :
  GSList2Values (λ n, n + 8)
    ([Some <$> (bytes "Verb" ++ [9] ++ bytes "v" ++ [0])]
     ++ (Some <$> (bytes "Noun n" ++ [0])) :: [])
  = None.
Proof.
  apply (X15_GSList2Values_no_tab (λ n, n + 8) _ _ [] (bytes "Noun n")).
  - reflexivity.
  - apply (bool_decide_unpack _). vm_compute. exact I.
Defined.

Lemma Forall2_with_right {A B} (P : A → B → Prop) (Q : B → Prop) l k :
  Forall2 P l k → Forall Q k → Forall2 (λ x y, P x y ∧ Q y) l k.
Proof.
  induction 1 as [|x y l k HP _ IH]; [constructor|].
  intros [HQ Hk]%Forall_cons. constructor; [done | by apply IH].
Qed.

Lemma Forall2_fmap_eq {A B C} (f : A → C) (h : B → C) l k :
  Forall2 (λ x y, f x = h y) l k → f <$> l = h <$> k.
Proof. induction 1 as [|x y l k Hxy _ IH]; [done|]. rewrite !fmap_cons. by f_equal. Qed.

Lemma convertible_storable lvs :
  Forall convertible lvs →
  Forall (λ lv, nul_free lv.1 ∧ nul_free lv.2 ∧ Z.of_nat (length lv.1) ≤ INT_MAX) lvs.
Proof.
  intros H. eapply Forall_impl; [exact H|].
  intros lv (? & ? & _ & ? & _). repeat split; [done..|lia].
Qed.

(** X16: an array turned into a list and back comes out in reverse order,
    and an array without complete entry comes out as NULL. *)
Theorem X16_array_list_array usable arr :
  (∀ n, 0 ≤ n → n + 1 ≤ usable n) → ended arr → Forall convertible (pairs arr) →
  ∃ g, Values2GSList usable (Some arr) = Some g ∧
       GSList2Values usable g
         = Some (if decide (pairs arr = []) then None
                 else Some ((entry_of <$> reverse (pairs arr)) ++ [table_end])).
Proof.
  intros Hu He Hall.
  destruct (Values2GSList_loop_strings usable arr [] Hu He
              (convertible_storable _ Hall)) as (g & Hg & HF).
  rewrite app_nil_r in Hg. exists g. split; [done|].
  unfold GSList2Values. destruct g as [|d g].
  - apply Forall2_nil_inv_l in HF. apply (f_equal reverse) in HF.
    rewrite reverse_involutive in HF. by rewrite HF.
  - rewrite decide_False.
    2:{ intros Hp. rewrite Hp in HF. by apply Forall2_nil_inv_r in HF. }
    rewrite (GSList2Values_loop_split usable (d :: g) (reverse (pairs arr))); [done| |].
    + intros n Hn. specialize (Hu n Hn). lia.
    + apply Forall2_with_right; [done|]. by apply Forall_reverse.
Qed.

Lemma X16_array_list_array_witness :
  ∃ g, Values2GSList (λ n, n + 1) (Some gen_values_default) = Some g ∧
       GSList2Values (λ n, n + 1) g
         = Some (if decide (pairs gen_values_default = []) then None
                 else Some ((entry_of <$> reverse (pairs gen_values_default))
                            ++ [table_end])).
Proof.
  apply (X16_array_list_array (λ n, n + 1) gen_values_default).
  - intros n Hn. lia.
  - unfold ended. simpl. lia.
  - apply (bool_decide_unpack _). vm_compute. exact I.
Defined.

Lemma pairs_entries lvs tail :
  pairs ((entry_of <$> lvs) ++ table_end :: tail) = lvs.
Proof.
  induction lvs as [|[l v] lvs IH]; [done|].
  rewrite fmap_cons. cbn [app pairs]. unfold entry_of at 1.
  cbn [label value fst snd]. by rewrite IH.
Qed.

(** Every string with a TAB is the string of a label and a value. *)
Lemma strings_split g :
  Forall (λ data, ∃ s, c_string data = Some s ∧ 9 ∈ s ∧
                       Z.of_nat (length s) ≤ INT_MAX) g →
  ∃ lvs, Forall2 (λ data lv, c_string data = Some (joined lv.1 lv.2) ∧
                             convertible lv) g lvs.
Proof.
  induction 1 as [|data g (s & Hc & Hs & Hlen) _ (lvs & IH)]; [by exists []|].
  apply list_elem_of_split_l in Hs as (l & v & -> & Hl).
  exists ((l, v) :: lvs). constructor; [|done]. split; [done|].
  pose proof (c_string_nul_free _ _ Hc) as [Hnl Hnv]%Forall_app.
  apply Forall_cons in Hnv as [_ Hnv].
  rewrite length_app in Hlen. cbn [length] in Hlen.
  repeat split; cbn [fst snd]; [done..|lia|lia].
Qed.

(** X17: a list of strings with TABs turned into an array and back comes
    out with the same strings in reverse order. *)
Theorem X17_list_array_list usable g :
  (∀ n, 0 ≤ n → n + 1 ≤ usable n) → g ≠ [] →
  Forall (λ data, ∃ s, c_string data = Some s ∧ 9 ∈ s ∧
                       Z.of_nat (length s) ≤ INT_MAX) g →
  ∃ arr g', GSList2Values usable g = Some (Some arr) ∧
            Values2GSList usable (Some arr) = Some g' ∧
            c_string <$> g' = reverse (c_string <$> g).
Proof.
  intros Hu Hne Hall. destruct (strings_split g Hall) as (lvs & HF).
  exists ((entry_of <$> lvs) ++ [table_end]).
  destruct (Values2GSList_loop_strings usable ((entry_of <$> lvs) ++ [table_end]) []
              Hu) as (g' & Hg' & HF').
  { unfold ended. rewrite pairs_entries, length_app, length_fmap. simpl. lia. }
  { rewrite pairs_entries. apply convertible_storable.
    clear -HF. induction HF as [|???? [_ ?]]; by constructor. }
  rewrite app_nil_r in Hg'. rewrite pairs_entries in HF'.
  exists g'. split; [|split; [done|]].
  - unfold GSList2Values. destruct g as [|d g]; [done|].
    rewrite (GSList2Values_loop_split usable (d :: g) lvs); [done| |done].
    intros n Hn. specialize (Hu n Hn). lia.
  - rewrite (Forall2_fmap_eq c_string (λ lv, Some (joined lv.1 lv.2)) g' (reverse lvs))
      by done.
    rewrite (Forall2_fmap_eq c_string (λ lv, Some (joined lv.1 lv.2)) g lvs).
    + by rewrite fmap_reverse.
    + eapply Forall2_impl; [exact HF|]. by intros ?? [? _].
Qed.

Lemma X17_list_array_list_witness :
  ∃ arr g', GSList2Values (λ n, n + 1)
              [Some <$> (bytes "Verb" ++ [9] ++ bytes "v" ++ [0]);
               Some <$> (bytes "Noun" ++ [9] ++ bytes "n" ++ [0])] = Some (Some arr) ∧
            Values2GSList (λ n, n + 1) (Some arr) = Some g' ∧
            c_string <$> g'
              = reverse (c_string <$>
                  [Some <$> (bytes "Verb" ++ [9] ++ bytes "v" ++ [0]);
                   Some <$> (bytes "Noun" ++ [9] ++ bytes "n" ++ [0])]).
Proof.
  apply (X17_list_array_list (λ n, n + 1)).
  - intros n Hn. lia.
  - discriminate.
  - constructor; [|constructor; [|constructor]].
    + exists (bytes "Verb" ++ [9] ++ bytes "v"). split; [reflexivity|].
      split; [|vm_compute; discriminate].
      apply (bool_decide_unpack _). vm_compute. exact I.
    + exists (bytes "Noun" ++ [9] ++ bytes "n"). split; [reflexivity|].
      split; [|vm_compute; discriminate].
      apply (bool_decide_unpack _). vm_compute. exact I.
Defined.

(** ** [my_free_values_array] *)

Lemma free_loop_front arr :
  (length (front arr) < length arr)%nat →
  ∃ t, free_loop arr = Some t ∧
       (∀ p, GFree p ∈ t ↔
             ∃ e, e ∈ front arr ∧ (label e = Some p ∨ value e = Some p)) ∧
       (∀ p, StoreNull p ∉ t).
Proof.
  induction arr as [|e arr IH]; cbn [front free_loop length]; [lia|].
  destruct (value e) as [pv|] eqn:Hv.
  - cbn [length]. intros Hlen.
    destruct IH as (t & -> & Hfree & Hstore); [lia|].
    eexists. split; [done|]. split.
    + intros p. rewrite elem_of_app, elem_of_cons, Hfree. split.
      * intros [Hp|[[= ->]|(e' & He' & Hp)]].
        -- exists e. split; [apply list_elem_of_here|].
           destruct (label e); [|by apply not_elem_of_nil in Hp].
           apply list_elem_of_singleton in Hp as [= ->]. by left.
        -- exists e. split; [apply list_elem_of_here | by right].
        -- exists e'. split; [by apply list_elem_of_further | done].
      * intros (e' & [->|He']%elem_of_cons & Hp).
        -- destruct Hp as [Hp|Hp].
           ++ left. rewrite Hp. apply list_elem_of_here.
           ++ right. left. congruence.
        -- right. right. by exists e'.
    + intros p. rewrite elem_of_app, elem_of_cons. intros [Hp|[?|Hp]].
      * destruct (label e); [|by apply not_elem_of_nil in Hp].
        by apply list_elem_of_singleton in Hp.
      * done.
      * by apply Hstore in Hp.
  - intros _. exists []. split; [done|]. split.
    + intros p. split; [by intros ?%not_elem_of_nil|].
      by intros (e' & ?%not_elem_of_nil & _).
    + intros p. apply not_elem_of_nil.
Qed.

(** X18: for an array that is not one of the five protected ones, the
    call frees the labels and values of the entries in front of the first
    one without value, then hands [v] itself to [g_free], and stores NULL
    through [v] after that; the array is handed to [g_free] only when its
    address is also that of one of these strings. *)
Theorem X18_free_hands_over_v G arrays vp a arr :
  Some a ∉ protected G → arrays a = Some arr →
  (length (front arr) < length arr)%nat →
  ∃ t, my_free_values_array G arrays (Some vp) (Some a)
         = Some (t ++ [GFree vp; StoreNull vp]) ∧
       (∀ p, GFree p ∈ t ↔
             ∃ e, e ∈ front arr ∧ (label e = Some p ∨ value e = Some p)) ∧
       (∀ p, StoreNull p ∉ t).
Proof.
  intros Hp Ha Hlen. unfold protected in Hp.
  repeat (apply not_elem_of_cons in Hp as [? Hp]).
  destruct (free_loop_front arr Hlen) as (t & Ht & Hfree & Hstore).
  exists t. split; [|done]. unfold my_free_values_array.
  rewrite !decide_False by done. rewrite Ha. cbn [mbind option_bind].
  by rewrite Ht.
Qed.

Lemma X18_free_hands_over_v_witness :
  ∃ t, my_free_values_array
         {| pos_values := Some 1%positive; num_values := Some 2%positive;
            domain_values := Some 3%positive; register_values := Some 4%positive;
            xr_values := Some 5%positive; gen_values := Some 6%positive |}
         (λ a, if decide (a = 4%positive)
               then Some [ {| label := Some 41%positive; value := Some 42%positive |};
                           {| label := None; value := None |} ]
               else None)
         (Some 9%positive) (Some 4%positive)
         = Some (t ++ [GFree 9%positive; StoreNull 9%positive]) ∧
       (∀ p, GFree p ∈ t ↔
             ∃ e, e ∈ front [ {| label := Some 41%positive; value := Some 42%positive |};
                              {| label := None; value := None |} ] ∧
                  (label e = Some p ∨ value e = Some p)) ∧
       (∀ p, StoreNull p ∉ t).
Proof.
  apply (X18_free_hands_over_v _ _ 9%positive 4%positive).
  - apply (bool_decide_unpack _). vm_compute. exact I.
  - reflexivity.
  - simpl. lia.
Defined.

(** X19: the call does nothing exactly when [v] is NULL or the array is
    one of [gen_values], [xr_values], [pos_values], [num_values] and
    [domain_values]; [register_values] is not among them. *)
Theorem X19_free_protects_five G arrays v star_v :
  my_free_values_array G arrays v star_v = Some [] ↔
  v = None ∨ star_v ∈ protected G.
Proof.
  unfold my_free_values_array, protected. destruct v as [vp|]; [|by split; [left|]].
  split.
  - repeat (case_decide; [intros _; right; subst;
                          repeat (apply list_elem_of_here || apply list_elem_of_further)|]).
    assert (∀ m : option (list mem_event),
              m ≫= (λ frees, Some (frees ++ [GFree vp; StoreNull vp])) ≠ Some [])
      as Hno; [|by intros ?%Hno].
    intros [t|]; [|done]. cbn [mbind option_bind].
    intros [= Ht]. by apply app_nil in Ht as [_ ?].
  - intros [?|Hp]; [done|].
    repeat (case_decide; [done|]).
    repeat (apply elem_of_cons in Hp as [?|Hp]; [done|]).
    by apply not_elem_of_nil in Hp.
Qed.

(** The sixth table is freed like any other array. *)
Example register_values_not_protected :
  let G := {| pos_values := Some 1%positive; num_values := Some 2%positive;
              domain_values := Some 3%positive; register_values := Some 4%positive;
              xr_values := Some 5%positive; gen_values := Some 6%positive |} in
  my_free_values_array G
    (λ _, Some [ {| label := Some 41%positive; value := Some 42%positive |};
                 {| label := None; value := None |} ])
    (Some 9%positive) (register_values G)
  = Some [GFree 41%positive; GFree 42%positive; GFree 9%positive; StoreNull 9%positive].
Proof. reflexivity. Qed.

End ValuesFacts.

(** * Further properties: queries and the node check *)

Module QueryFacts.
Import Xml XmlFacts Sample.

Lemma returned_set_counts E xp h doc pctxt ns ev :
  find_node_set E xp h doc pctxt = Some (Some ns, ev) → nodeNr ns ≠ 0.
Proof.
  unfold find_node_set. destruct (new_context_ok E); [|done]. cbn [negb].
  destruct (my_xmlXPathEvalExpression _ _ _ _ _) as [[[o|] ev']|]; [|done..].
  destruct (nodesetval o) as [ns'|]; [|done].
  case_decide as Hnr; [done|]. by intros [= <- _].
Qed.

(** X20: a node set that [find_node_set] returns has a node: the read of
    [nodeTab[0]] in [find_single_node] is in range, and the test of
    [nodeNr] in [entry_orths_to_string] never fires. *)
Theorem X20_returned_set_not_empty E xp h doc pctxt ns ev :
  find_node_set E xp h doc pctxt = Some (Some ns, ev) → nodeTab ns ≠ [].
Proof.
  intros Hnr%returned_set_counts Hnil. apply Hnr. unfold nodeNr. by rewrite Hnil.
Qed.

Lemma X20_returned_set_not_empty_witness :
  nodeTab {| nodeTab := [4%positive; 6%positive] |} ≠ [].
Proof.
  eapply (X20_returned_set_not_empty (selecting [4%positive; 6%positive]) "//orth"
            entry_doc (Some 1%positive) None).
  reflexivity.
Defined.

(** X21: [find_single_node] returns NULL exactly when [find_node_set]
    does, and the first node of the set otherwise; it has a result
    whenever [find_node_set] has one. *)
Theorem X21_single_node_is_first E xp h doc r ev :
  find_node_set E xp h doc None = Some (r, ev) →
  ∃ n ev', find_single_node E xp h doc = Some (n, ev') ∧
           (n = None ↔ r = None) ∧
           (∀ ns, r = Some ns → n = head (nodeTab ns)).
Proof.
  intros Hf. unfold find_single_node. rewrite Hf. destruct r as [ns|].
  - pose proof (returned_set_counts _ _ _ _ _ _ _ Hf) as Hne. unfold nodeNr in Hne.
    destruct (nodeTab ns) as [|n0 rest] eqn:Hns; [done|].
    eexists _, _. split; [done|]. split; [done|].
    intros ns' [= <-]. by rewrite Hns.
  - exists None, ev. by repeat split.
Qed.

Lemma X21_single_node_is_first_witness :
  ∃ n ev', find_single_node (selecting [6%positive; 4%positive]) "//orth" entry_doc
             (Some 1%positive) = Some (n, ev') ∧
           (n = None ↔ Some {| nodeTab := [6%positive; 4%positive] |} = None) ∧
           (∀ ns, Some {| nodeTab := [6%positive; 4%positive] |} = Some ns →
                  n = head (nodeTab ns)).
Proof.
  eapply (X21_single_node_is_first (selecting [6%positive; 4%positive]) "//orth"
            entry_doc (Some 1%positive)).
  reflexivity.
Defined.

Lemma drain_length st : drain st = Z.of_nat (length st).
Proof. induction st as [|o st IH]; [done|]. cbn [drain length]. lia. Qed.

(** X22: the message about objects left on the stack is printed exactly
    when the expression was consumed and the value stack held two objects
    or more; after a syntax error what is left is freed without a word. *)
Theorem X22_left_on_stack E str h d dn p slot0 :
  h !! d = Some dn → children dn ≠ [] → xmlXPathNewParserContext E = Some p →
  ∃ res ev,
    my_xmlXPathEvalExpression E str h (Some {| ctxt_doc := Some d |}) slot0
      = Some (res, ev) ∧
    (Printed "xmlXPathEvalExpression: %d object left on the stack" ∈ ev ↔
       cur (xmlXPathEvalExpr E str h d) = 0 ∧
       (2 ≤ length (valueTab (xmlXPathEvalExpr E str h d)))%nat).
Proof.
  intros Hd Hch Hp. unfold my_xmlXPathEvalExpression, context_unusable.
  cbn [ctxt_doc mbind option_bind]. rewrite Hd, bool_decide_eq_false_2 by done.
  rewrite Hp. set (pc := xmlXPathEvalExpr E str h d).
  destruct (decide (cur pc ≠ 0)) as [Hc|Hc].
  - rewrite decide_False by (by intros [_ ?]).
    eexists _, _. split; [done|]. split; [|by intros [? _]].
    intros Hin. exfalso. revert Hin. not_in_list.
  - apply dec_stable in Hc.
    destruct (valueTab pc) as [|o [|o2 rest]] eqn:Hv; cbn [valuePop drain].
    + rewrite decide_False by (by intros [_ ?]).
      eexists _, _. split; [done|]. split; [|simpl; lia].
      intros Hin. exfalso. revert Hin. not_in_list.
    + rewrite decide_False by (by intros [? _]).
      eexists _, _. split; [done|]. split; [|simpl; lia].
      intros Hin. exfalso. revert Hin. not_in_list.
    + rewrite decide_True by (rewrite drain_length; split; [lia | done]).
      eexists _, _. split; [done|]. split; [|intros _].
      * intros _. split; [done | simpl; lia].
      * do 4 apply list_elem_of_further.
        apply list_elem_of_here.
Qed.

Lemma X22_left_on_stack_witness :
  ∃ res ev,
    my_xmlXPathEvalExpression
      (env_of {| cur := 0; valueTab := [nodeset_object [4%positive]; number_object] |})
      "//orth" entry_doc (Some {| ctxt_doc := Some 1%positive |}) SlotNull
      = Some (res, ev) ∧
    (Printed "xmlXPathEvalExpression: %d object left on the stack" ∈ ev ↔
       cur {| cur := 0; valueTab := [nodeset_object [4%positive]; number_object] |} = 0 ∧
       (2 ≤ length (valueTab {| cur := 0;
                                valueTab := [nodeset_object [4%positive];
                                             number_object] |}))%nat).
Proof.
  eapply (X22_left_on_stack
            (env_of {| cur := 0; valueTab := [nodeset_object [4%positive]; number_object] |})
            "//orth" entry_doc 1%positive).
  - reflexivity.
  - discriminate.
  - reflexivity.
Defined.

(** X23: on a document without children nothing is evaluated and nothing
    is unlinked: the error is reported to the parser context that the
    uninitialised local [pctxt2] of [find_node_set] happens to hold.
    When that is indeterminate the call has no result; otherwise it
    returns NULL, leaves [*can] and the document alone, and neither takes
    the mutex nor writes the slot. *)
Theorem X23_childless_document E xp attrs contents h d dn c :
  new_context_ok E = true → h !! d = Some dn → children dn = [] →
  (pctxt2 E = SlotIndeterminate →
     unlink_leaf_node_with_attr E (Some xp) attrs contents h (Some d) (Some c) = None) ∧
  (pctxt2 E ≠ SlotIndeterminate →
     ∃ ev, unlink_leaf_node_with_attr E (Some xp) attrs contents h (Some d) (Some c)
             = Some {| ret := None; can_out := Some c; store_out := h; events := ev |} ∧
           XPathError "XPATH_INVALID_CTXT" ∈ ev ∧
           (MutexLock ∉ ev) ∧ (∀ v, SlotWrite v ∉ ev) ∧ (∀ q, EvalExpr q ∉ ev)).
Proof.
  intros Hnew Hd Hch.
  unfold unlink_leaf_node_with_attr, find_single_node, find_node_set,
    my_xmlXPathEvalExpression, context_unusable.
  rewrite Hnew. cbn [negb ctxt_doc]. rewrite Hd, bool_decide_eq_true_2 by done.
  split.
  - by intros ->.
  - intros Hp. destruct (pctxt2 E) as [|q|] eqn:Hq; [| |done];
      (eexists; split; [done|]);
      (split; [apply elem_of_app; right; apply elem_of_app; right;
               apply list_elem_of_here|]);
      repeat split; intros; repeat case_decide; cbn [app]; not_in_list.
Qed.

Lemma X23_childless_document_witness :
  unlink_leaf_node_with_attr (selecting [2%positive]) (Some "/entry") None None
    {[ 1%positive := node XML_DOCUMENT_NODE "" [] None [] ]}
    (Some 1%positive) (Some true) = None.
Proof.
  refine (proj1 (X23_childless_document (selecting [2%positive]) "/entry" None None
                   {[ 1%positive := node XML_DOCUMENT_NODE "" [] None [] ]}
                   1%positive (node XML_DOCUMENT_NODE "" [] None []) true _ _ _) _);
    reflexivity.
Defined.

(** X24: with [attr_contents] NULL the check has no result as soon as an
    element with an attribute meets a list of names that is not empty:
    the loop reads [*attr_content] before it tests [attr_content]. *)
Theorem X24_null_contents h n nd a rest nm name0 names :
  h !! n = Some nd → type nd = XML_ELEMENT_NODE →
  properties nd = a :: rest → attr_name a = Some nm →
  has_only_text_children_and_allowed_attrs h (Some n) (Some (name0 :: names)) None
    = None.
Proof.
  intros Hn Ht Hp Ha. unfold has_only_text_children_and_allowed_attrs.
  rewrite Hn, Ht, Hp. rewrite decide_True by done.
  cbn [attrs_loop]. by rewrite Ha.
Qed.

Lemma X24_null_contents_witness :
  has_only_text_children_and_allowed_attrs entry_doc (Some 4%positive)
    (Some ["type"]) None = None.
Proof.
  eapply (X24_null_contents entry_doc 4%positive _ _ _ "type"); reflexivity.
Defined.

(** X25: for a node that is not an element or has no attribute, the two
    arrays are not looked at: the answer is the same whatever they are. *)
Theorem X25_arrays_not_consulted h n nd attrs contents attrs' contents' :
  h !! n = Some nd → type nd ≠ XML_ELEMENT_NODE ∨ properties nd = [] →
  has_only_text_children_and_allowed_attrs h (Some n) attrs contents
    = has_only_text_children_and_allowed_attrs h (Some n) attrs' contents'.
Proof.
  intros Hn Hcase. unfold has_only_text_children_and_allowed_attrs. rewrite Hn.
  destruct Hcase as [Ht|Hp].
  - by rewrite !decide_False by done.
  - rewrite Hp. by case_decide.
Qed.

Lemma X25_arrays_not_consulted_witness :
  has_only_text_children_and_allowed_attrs entry_doc (Some 6%positive) None None
    = has_only_text_children_and_allowed_attrs entry_doc (Some 6%positive)
        (Some ["type"]) (Some [None]).
Proof.
  eapply (X25_arrays_not_consulted entry_doc 6%positive); [reflexivity|].
  right. reflexivity.
Defined.

End QueryFacts.

(** * Further properties: the joined text *)

Module JoinMore.
Import Xml XmlFacts JoinFacts Sample.

Lemma Chars_ascii e :
  Forall (λ b, 0 < b < 128) e → Chars e ((λ b, [b]) <$> e).
Proof.
  induction 1 as [|b e Hb _ IH]; [constructor|].
  rewrite fmap_cons. apply (Chars_cons b [] e); [lia| |done].
  unfold g_utf8_skip. by rewrite decide_True by lia.
Qed.

Lemma concat_take_singletons (e : list Z) : ∀ k,
  concat (take k ((λ b, [b]) <$> e)) = take k e.
Proof.
  induction e as [|b e IH]; intros [|k]; [done..|].
  rewrite fmap_cons. cbn [take concat app]. by rewrite IH.
Qed.

Lemma join_ascii cs : ∀ acc,
  Forall (λ b, 0 < b < 128) acc →
  Forall (λ c, ∀ t, c = Some t → Forall (λ b, 0 < b < 128) t) cs →
  Forall (λ b, 0 < b < 128) (join_from acc cs).
Proof.
  induction cs as [|c cs IH]; intros acc Hacc Hcs; [done|].
  apply Forall_cons in Hcs as [Hc Hcs]. cbn [join_from]. apply IH; [|done].
  apply Forall_app. split.
  - destruct acc; [done|]. apply Forall_app. split; [done|].
    repeat constructor; lia.
  - destruct c as [t|]; [by apply Hc|]. repeat constructor; lia.
Qed.

(** X26: when the contents of the orth elements are ASCII and the entry
    behind the last node of the table can be read, the call succeeds and
    stores the first [len/2] bytes of the join: half of the buffer is
    never used. *)
Theorem X26_ascii_half_buffer E h n len s0 h' doc p nodes :
  0 < len →
  new_doc_with_copy E h n = Some (h', doc) →
  ready E h' doc p → matches E "/entry/form/orth" h' doc nodes → nodes ≠ [] →
  is_Some (nodeTab_end E {| nodeTab := nodes |}) →
  Forall (λ m, ∀ t, xmlNodeGetContent E h' m = Some t → Forall (λ b, 0 < b < 128) t)
         nodes →
  ∃ ev, entry_orths_to_string E h (Some n) len (Some s0)
        = Some ((true,
                 Some (take (Z.to_nat (len / 2))
                         (join_from [] (xmlNodeGetContent E h' <$> nodes)))),
                ev).
Proof.
  intros Hlen Hcopy Hr Hm Hne Hlast Hascii.
  destruct (find_node_set_matches E _ h' doc p nodes Hr Hm) as (ev & _ & Hf).
  unfold entry_orths_to_string, copy_node_to_doc.
  rewrite decide_True by done. rewrite Hcopy, Hf.
  rewrite (decide_False (P := nodes = [])) by done.
  unfold nodeNr. cbn [nodeTab].
  rewrite decide_False by (destruct nodes; [done | simpl; lia]).
  set (J := join_from [] (xmlNodeGetContent E h' <$> nodes)) in *.
  assert (orth_loop E h' (nodeTab_end E {| nodeTab := nodes |}) nodes [] len
          = Some (take (Z.to_nat (len - 1)) J)) as ->.
  { subst J. rewrite <- (orth_loop_take E h' len _ nodes [] Hlen Hlast).
    by rewrite take_nil. }
  assert (Forall (λ b, 0 < b < 128) J) as HJ.
  { apply join_ascii; [constructor|]. apply Forall_fmap.
    eapply Forall_impl; [exact Hascii|]. intros m Hmc t Ht. by apply Hmc. }
  rewrite Z.quot_div_nonneg by lia.
  set (e := take (Z.to_nat (len - 1)) J).
  assert (g_utf8_strncpy len e (len / 2) = Some (take (Z.to_nat (len / 2)) e)) as ->.
  { pose proof (Chars_ascii e (Forall_take _ _ _ HJ)) as Hch.
    pose proof (Chars_concat _ _ Hch) as Hcat.
    rewrite <- (concat_take_singletons e).
    rewrite Hcat at 1. rewrite <- (app_nil_r (concat _)).
    apply g_utf8_strncpy_whole; [by rewrite <- Hcat| |by right].
    rewrite app_nil_r, <- Hcat. subst e. rewrite length_take. lia. }
  exists ev. subst e. rewrite take_take.
  do 5 f_equal. assert (len / 2 < len) by (apply Z.div_lt_upper_bound; lia).
  lia.
Qed.

Lemma X26_ascii_half_buffer_witness :
  ∃ ev, entry_orths_to_string
          (three_orths (Some (bytes "colour")) (Some (bytes "color")) None)
          entry_doc (Some 2%positive) 20 (Some [])
        = Some ((true, Some (bytes "colour, co")), ev).
Proof.
  apply (X26_ascii_half_buffer
           (three_orths (Some (bytes "colour")) (Some (bytes "color")) None)
           entry_doc 2%positive 20 [] (entry_doc ∪ entry_copy) 11%positive
           100%positive [14%positive; 16%positive; 18%positive]).
  - lia.
  - reflexivity.
  - split; [reflexivity|]. split; [|reflexivity].
    eexists. split; [reflexivity | discriminate].
  - split; [reflexivity|]. eexists _, _. split; reflexivity.
  - discriminate.
  - by eexists.
  - constructor; [|constructor; [|constructor; [|constructor]]];
      intros t Ht; vm_compute in Ht; try discriminate;
      injection Ht as <-; repeat constructor; lia.
Defined.

End JoinMore.
